(** * CodeLens backend: the retrieval pipeline, embedded and verified

    A shallow embedding of the Python sources of the RAG service
    (chunker, retriever, generator, updater, PDF loader) together with
    the properties its specification states about them.

    Layout: Part I holds the definitions, translated function by
    function from the sources; Part II holds the lemmas and theorems
    for the statements of the specification; Part III holds further
    properties read off the code (sentence chunking, text clean-up,
    collection status, batch PDF loading and two endpoints included).

    Modelling conventions.
    - A Python [str] is the list of its Unicode code points.
    - Python integers are [Z]; list and string lengths are converted
      with [Z.of_nat] where the source calls [len].
    - A [dict] with string keys is a [gmap] keyed by Python strings.
    - Functions that talk to the embedding model, the vector store,
      the LLM, the network or the file system run in a state and
      exception monad over [world]; what those services answer is
      given by the operations of the class [Services].
    - [print] has no counterpart, and of [time.sleep] only the
      exception it may raise is kept: console output and wall-clock
      delays are not part of the model. *)

From Stdlib Require Import ZArith NArith Lia Floats.
From Stdlib Require Ascii String.
From stdpp Require Import base option list gmap strings pretty.

Open Scope Z_scope.

(* ===================================================================== *)
(** * Part I.  Definitions                                                *)
(* ===================================================================== *)

(** ** Python primitives used by the repository *)

Module Py.

(** A string is a sequence of code points. *)
Definition str : Type := list N.

(** String literals of the sources (all of them ASCII). *)
Definition lit (s : string) : str :=
  Ascii.N_of_ascii <$> String.list_ascii_of_string s.

(** The empty string. *)
Definition empty_str : str := [].

(** [len(x)] *)
Definition len {A} (l : list A) : Z := Z.of_nat (length l).

(** Truthiness of a sequence: [if x:] holds when [x] is non-empty. *)
Definition truthy {A} (l : list A) : bool :=
  match l with [] => false | _ :: _ => true end.

(** [c.isspace()] for a single code point: the white-space set of
    CPython's Unicode database. *)
Definition isspace (c : N) : bool :=
  (((9 <=? c) && (c <=? 13)) || ((28 <=? c) && (c <=? 32))
   || (c =? 133) || (c =? 160) || (c =? 5760)
   || ((8192 <=? c) && (c <=? 8202))
   || (c =? 8232) || (c =? 8233) || (c =? 8239) || (c =? 8287)
   || (c =? 12288))%N.

(** [s.lstrip()], [s.rstrip()], [s.strip()] *)
Fixpoint lstrip (s : str) : str :=
  match s with
  | [] => []
  | c :: s' => if isspace c then lstrip s' else s
  end.

Definition rstrip (s : str) : str := reverse (lstrip (reverse s)).

Definition strip (s : str) : str := rstrip (lstrip s).

(** A string that does not begin with white space. *)
Definition starts_clean (s : str) : Prop :=
  match s with [] => True | c :: _ => isspace c = false end.

(** Index normalisation of a slice bound: a negative bound counts from
    the end, and every bound is clamped into [0, n]. *)
Definition clamp_index (n i : Z) : Z :=
  if i <? 0 then Z.max (i + n) 0 else Z.min i n.

(** [l[lo:hi]] *)
Definition slice {A} (l : list A) (lo hi : Z) : list A :=
  let n := len l in
  let lo' := clamp_index n lo in
  let hi' := clamp_index n hi in
  take (Z.to_nat (hi' - lo')) (drop (Z.to_nat lo') l).

(** [sep.join(parts)] *)
Fixpoint join (sep : str) (parts : list str) : str :=
  match parts with
  | [] => []
  | [p] => p
  | p :: rest => p ++ sep ++ join sep rest
  end.

(** [list(range(start, stop, step))] for a non-zero step (a zero step
    is a [ValueError], raised where the range is built). One unit of
    fuel per integer between the bounds is enough for every step. *)
Fixpoint range_from (fuel : nat) (start stop step : Z) : list Z :=
  match fuel with
  | O => []
  | S fuel' =>
      if (if 0 <? step then start <? stop else stop <? start)
      then start :: range_from fuel' (start + step) stop step
      else []
  end.

Definition range (start stop step : Z) : list Z :=
  range_from (Z.to_nat (Z.abs (stop - start))) start stop step.

(** The newline character as a string. *)
Definition nl : str := [10%N].

(** [enumerate(l, start)] *)
Fixpoint enumerate {A} (start : Z) (l : list A) : list (Z * A) :=
  match l with
  | [] => []
  | x :: l' => (start, x) :: enumerate (start + 1) l'
  end.

(** [os.path.basename(p)] on a POSIX path: what follows the last
    slash. *)
Fixpoint basename_aux (p acc : str) : str :=
  match p with
  | [] => acc
  | c :: p' =>
      if (c =? 47)%N then basename_aux p' []
      else basename_aux p' (acc ++ [c])
  end.

Definition basename (p : str) : str := basename_aux p [].

End Py.

(** ** config.py *)

Module Config.
Definition COLLECTION_NAME : Py.str := Py.lit "codelens_docs".
Definition VECTOR_SIZE : Z := 384.
Definition LLM_MODEL : Py.str := Py.lit "llama-3.3-70b-versatile".
Definition CHUNK_SIZE : Z := 800.
Definition CHUNK_OVERLAP : Z := 100.
End Config.

(** ** rag_engine/chunker.py *)

Module Chunker.
Import Py.

(** The body of the [while] loop of [chunk_text], iterated. [None]
    means that the fuel ran out while the loop was still running. *)
Fixpoint chunk_loop (fuel : nat) (text : str) (chunk_size overlap : Z)
    (start : Z) (chunks : list str) : option (list str) :=
  match fuel with
  | O => None
  | S fuel' =>
      if start <? len text then
        let end_ := Z.min (start + chunk_size) (len text) in
        let chunk := strip (slice text start end_) in
        let chunks := if truthy chunk then chunks ++ [chunk] else chunks in
        let start := start + (chunk_size - overlap) in
        if chunk_size <=? overlap then Some chunks
        else chunk_loop fuel' text chunk_size overlap start chunks
      else Some chunks
  end.

Definition chunk_text_fuel (fuel : nat) (text : str)
    (chunk_size overlap : Z) : option (list str) :=
  if negb (truthy text) || (len text =? 0) then Some []
  else chunk_loop fuel text chunk_size overlap 0 [].

(** [chunk_text(text, chunk_size, overlap)]: the loop run with one unit
    of fuel per character and one for the final test. Lemma
    [chunk_text_fuel_enough] shows that this fuel never runs out, so the
    default below is never taken. *)
Definition chunk_text (text : str) (chunk_size overlap : Z) : list str :=
  default [] (chunk_text_fuel (S (length text)) text chunk_size overlap).

(** [chunk_text(text)] with the defaults of the signature. *)
Definition chunk_text_default (text : str) : list str :=
  chunk_text text Config.CHUNK_SIZE Config.CHUNK_OVERLAP.

(** *** The windows of the specification

    The specification (its section 4.1) describes the chunks as the
    windows [text[start : start+chunk_size]] for [start] = 0, [step],
    2*[step], ... below [len(text)], with [step = chunk_size - overlap].
    The following definitions follow those words (for
    [0 <= overlap < chunk_size]); they are compared with [chunk_text]
    in Part II. *)

Definition window (text : str) (chunk_size step k : nat) : str :=
  take chunk_size (drop (k * step) text).

Definition window_count (text : str) (step : nat) : nat :=
  (length text + step - 1) `div` step.

Definition windows (text : str) (chunk_size overlap : nat) : list str :=
  let step := (chunk_size - overlap)%nat in
  window text chunk_size step <$> seq 0 (window_count text step).

(** The part of each window that no earlier window holds: the first
    window whole, every later one without its first [overlap]
    characters. *)
Definition unique_portions (overlap : nat) (ws : list str) : list str :=
  match ws with
  | [] => []
  | w :: rest => w :: (drop overlap <$> rest)
  end.

(** The part of each window that no later window holds: its first
    [step] characters. *)
Definition leading_portions (step : nat) (ws : list str) : list str :=
  take step <$> ws.

(** How many characters [lstrip] removes from a window. *)
Definition leading_whitespace (w : str) : nat :=
  (length w - length (lstrip w))%nat.

(** The unique portion of the chunk made from window [w]: what the chunk
    keeps of the window beyond its first [overlap] characters. *)
Definition chunk_unique (overlap : nat) (w : str) : str :=
  drop (overlap - leading_whitespace w) (strip w).

(** Each chunk paired with its unique portion: the first chunk whole,
    the later ones beyond the overlap of their window; a window that
    strips to nothing gives no chunk. *)
Definition chunk_parts (overlap : nat) (ws : list str) : list (str * str) :=
  filter (λ part, part.1 ≠ [])
    match ws with
    | [] => []
    | w :: rest =>
        (strip w, chunk_unique 0 w)
          :: ((λ w, (strip w, chunk_unique overlap w)) <$> rest)
    end.

(** Deleting every white-space character: the coarsest white-space
    normalisation (two strings that differ after it differ after any
    normalisation that only rewrites white space). *)
Definition remove_whitespace (s : str) : str :=
  filter (λ c, isspace c = false) (s : list N).

End Chunker.

(** ** The services around the program, and the monad of effects *)

Module World.
Import Py.

(** The values the repository stores in payloads and metadata. *)
Inductive value :=
| VStr (s : str)
| VInt (n : Z)
| VNone.

(** An exception (any instance of [Exception]) with its [str(e)]. *)
Inductive exn := Exception (msg : str).

Definition exn_str (e : exn) : str := match e with Exception m => m end.

(** [qdrant_client.http.models.PointStruct]; the identifier stands for
    the string of a fresh [uuid.uuid4()]. *)
Record PointStruct := {
  point_id : nat;
  point_vector : list float;
  point_payload : gmap str value
}.

(** An entry of a search answer of the store. *)
Record ScoredPoint := {
  sp_score : float;
  sp_payload : option (gmap str value)
}.

(** The state outside the functions: the collections of the vector
    store, the points of the configured collection, the supply of fresh
    identifiers and the module-level [_embedder_instance]. *)
Record world := {
  collections : list str;
  points : list PointStruct;
  uuid_counter : nat;
  embedder_instance : bool
}.

(** What the external services do. Every operation that may fail has
    an outcome chosen by the environment. *)
Class Services := {
  (** [SentenceTransformer(model_name)] *)
  model_load : world → option exn;
  (** [model.encode(texts, ...).tolist()] *)
  model_encode : list str → exn + list (list float);
  (** failures of the store's client, per request *)
  qdrant_get_collections_fault : world → option exn;
  qdrant_create_collection_fault : world → option exn;
  qdrant_upsert_fault : world → list PointStruct → option exn;
  qdrant_search_fault : world → list float → Z → option exn;
  (** the store's ranking of its points against a query vector *)
  qdrant_rank : list float → list PointStruct → list ScoredPoint;
  (** [client.chat.completions.create(...)]: the contents of the
      choices of the completion *)
  groq_create : list (str * str) → exn + list str;
  (** [requests.get] followed by the BeautifulSoup extraction and the
      white-space clean-up of [fetch_page_text]: title and text *)
  http_scrape : str → exn + (value * str);
  (** [os.path.exists] *)
  os_path_exists : str → bool;
  (** [PdfReader(path).pages], each page with the outcome of its
      [extract_text()] *)
  pdf_pages : str → exn + list (exn + str);
  (** [time.sleep(seconds)] rejects some arguments (a negative one, for
      instance) with an exception *)
  sleep_fault : float → option exn
}.

(** Computations: state passing with exceptions. The world survives an
    exception (what was written before it stays written). *)
Definition M (A : Type) : Type := world → (exn + A) * world.

Definition ret {A} (x : A) : M A := λ w, (inr x, w).

Definition raise {A} (e : exn) : M A := λ w, (inl e, w).

Definition bind {A B} (m : M A) (k : A → M B) : M B :=
  λ w, match m w with
       | (inl e, w') => (inl e, w')
       | (inr x, w') => k x w'
       end.

(** [try: body / except Exception as e: handler(e)] *)
Definition try_except {A} (body : M A) (handler : exn → M A) : M A :=
  λ w, match body w with
       | (inl e, w') => handler e w'
       | (inr x, w') => (inr x, w')
       end.

Definition lift {A} (r : exn + A) : M A :=
  match r with inl e => raise e | inr x => ret x end.

Definition fault (f : world → option exn) : M () :=
  λ w, match f w with Some e => (inl e, w) | None => (inr (), w) end.

Module Import Notations.
Notation "x <- m ;; k" := (bind m (λ x, k))
  (at level 100, m at next level, right associativity).
Notation "m ;;; k" := (bind m (λ _, k))
  (at level 100, right associativity).
End Notations.

(** [for x in l: body(x)] *)
Fixpoint for_each {A} (l : list A) (body : A → M ()) : M () :=
  match l with
  | [] => ret ()
  | x :: l' => body x ;;; for_each l' body
  end.

(** A list comprehension whose element expression has effects. *)
Fixpoint map_m {A B} (f : A → M B) (l : list A) : M (list B) :=
  match l with
  | [] => ret []
  | x :: l' => y <- f x ;; ys <- map_m f l' ;; ret (y :: ys)
  end.

(** A loop that updates an accumulator. *)
Fixpoint fold_m {A S} (f : A → S → M S) (l : list A) (s : S) : M S :=
  match l with
  | [] => ret s
  | x :: l' => s' <- f x s ;; fold_m f l' s'
  end.

(** Steps taken one after the other: [step x w y w'] says that the
    element [x], met in the world [w], gives [y] and leaves the world
    [w']; each step starts in the world the step before it left. *)
Inductive in_turn {A B} (step : A → world → B → world → Prop)
    : list A → world → list B → world → Prop :=
| in_turn_nil w : in_turn step [] w [] w
| in_turn_cons x xs w y w1 ys w' :
    step x w y w1 →
    in_turn step xs w1 ys w' →
    in_turn step (x :: xs) w (y :: ys) w'.

(** Exceptions raised by the interpreter itself. *)
Definition IndexError : exn := Exception (lit "list index out of range").
Definition ValueError_range : exn :=
  Exception (lit "range() arg 3 must not be zero").
Definition AttributeError_get : exn :=
  Exception (lit "'NoneType' object has no attribute 'get'").
(** [type(v).__name__] *)
Definition type_name (v : value) : str :=
  match v with
  | VStr _ => lit "str"
  | VInt _ => lit "int"
  | VNone => lit "NoneType"
  end.

(** The error of [len(v)] for a value without a length. *)
Definition TypeError_len (v : value) : exn :=
  Exception (lit "object of type '" ++ type_name v ++ lit "' has no len()").
Definition CollectionNotFound : exn :=
  Exception (lit "Not found: Collection `codelens_docs` doesn't exist!").

End World.

(** ** rag_engine/embedder.py *)

Module Embedder.
Import Py World World.Notations.

Section WithServices.
Context `{svc : Services}.

(** [get_embedder()]: builds the singleton on first use. *)
Definition get_embedder : M () :=
  λ w, if embedder_instance w then (inr (), w)
       else match model_load w with
            | Some e => (inl e, w)
            | None =>
                (inr (), {| collections := collections w;
                            points := points w;
                            uuid_counter := uuid_counter w;
                            embedder_instance := true |})
            end.

(** [Embedder.embed_text(texts)] on a list of strings *)
Definition embed_text (texts : list str) : M (list (list float)) :=
  lift (model_encode texts).

(** [Embedder.embed_query(query)]: [embed_text(query)[0]] *)
Definition embed_query (query : str) : M (list float) :=
  vectors <- embed_text [query] ;;
  match vectors with
  | [] => raise IndexError
  | v :: _ => ret v
  end.

End WithServices.
End Embedder.

(** ** rag_engine/retriever.py *)

Module Retriever.
Import Py World World.Notations Chunker Embedder.

(** One entry of the answer of [search_documents]. *)
Record SearchResult := {
  sr_text : value;
  sr_score : float;
  sr_source : value;
  sr_metadata : gmap str value
}.

(** [str(uuid.uuid4())]: a fresh identifier. *)
Definition uuid4 : M nat :=
  λ w, (inr (uuid_counter w),
        {| collections := collections w;
           points := points w;
           uuid_counter := S (uuid_counter w);
           embedder_instance := embedder_instance w |}).

(** The payload literal of [add_document]:
    [{"text": chunk, "chunk_index": index, **(metadata or {})}].
    Keys of the metadata come last and so replace the two fixed
    ones. *)
Definition make_payload (chunk : str) (index : Z)
    (metadata : option (gmap str value)) : gmap str value :=
  default ∅ metadata
    ∪ <[lit "text" := VStr chunk]> (<[lit "chunk_index" := VInt index]> ∅).

(** The payloads [add_document] builds for consecutive chunks, the first
    of them at index [start]. *)
Definition chunk_payloads (metadata : option (gmap str value)) (start : Z)
    (chunks : list str) : list (gmap str value) :=
  (λ '(i, chunk), make_payload chunk i metadata) <$> enumerate start chunks.

Section WithServices.
Context `{svc : Services}.

(** The calls into [qdrant_client]. *)
Definition qdrant_get_collections : M (list str) :=
  fault qdrant_get_collections_fault ;;; λ w, (inr (collections w), w).

(** A collection that has just been created holds no point. *)
Definition qdrant_create_collection (name : str) : M () :=
  fault qdrant_create_collection_fault ;;;
  λ w, (inr (), {| collections := name :: collections w;
                   points := [];
                   uuid_counter := uuid_counter w;
                   embedder_instance := embedder_instance w |}).

Definition qdrant_upsert (new_points : list PointStruct) : M () :=
  λ w, if bool_decide (Config.COLLECTION_NAME ∈ collections w) then
         match qdrant_upsert_fault w new_points with
         | Some e => (inl e, w)
         | None =>
             (inr (), {| collections := collections w;
                         points := points w ++ new_points;
                         uuid_counter := uuid_counter w;
                         embedder_instance := embedder_instance w |})
         end
       else (inl CollectionNotFound, w).

Definition qdrant_search (query_vector : list float) (limit : Z)
    : M (list ScoredPoint) :=
  λ w, if bool_decide (Config.COLLECTION_NAME ∈ collections w) then
         match qdrant_search_fault w query_vector limit with
         | Some e => (inl e, w)
         | None =>
             (inr (take (Z.to_nat limit)
                     (qdrant_rank query_vector (points w))), w)
         end
       else (inl CollectionNotFound, w).

(** [init_collection()] *)
Definition init_collection : M () :=
  try_except
    (collection_names <- qdrant_get_collections ;;
     if bool_decide (Config.COLLECTION_NAME ∈ collection_names)
     then ret ()
     else qdrant_create_collection Config.COLLECTION_NAME)
    (λ e, raise e).

(** One round of the batch loop of [add_document]. *)
Definition upload_batch (chunks : list str)
    (metadata : option (gmap str value)) (batch_size batch_start : Z)
    : M () :=
  let batch_end := Z.min (batch_start + batch_size) (len chunks) in
  let batch_chunks := slice chunks batch_start batch_end in
  vectors <- embed_text batch_chunks ;;
  points <- map_m
    (λ '(i, (chunk, vector)),
       point_id <- uuid4 ;;
       ret {| point_id := point_id;
              point_vector := vector;
              point_payload :=
                make_payload chunk (batch_start + i) metadata |})
    (enumerate 0 (zip batch_chunks vectors)) ;;
  qdrant_upsert points.

(** [add_document(text, metadata, batch_size)]. The counter
    [total_uploaded] of the source only feeds the console output. *)
Definition add_document (text : str)
    (metadata : option (gmap str value)) (batch_size : Z) : M Z :=
  try_except
    (let chunks := chunk_text_default text in
     if negb (truthy chunks) then ret 0
     else
       get_embedder ;;;
       batch_starts <-
         (if batch_size =? 0 then raise ValueError_range
          else ret (range 0 (len chunks) batch_size)) ;;
       for_each batch_starts (upload_batch chunks metadata batch_size) ;;;
       ret (len chunks))
    (λ e, raise e).

(** The dictionary built for one hit in [search_documents]. *)
Definition format_result (result : ScoredPoint) : M SearchResult :=
  match sp_payload result with
  | None => raise AttributeError_get
  | Some payload =>
      ret {| sr_text := default (VStr empty_str) (payload !! lit "text");
             sr_score := sp_score result;
             sr_source :=
               default (VStr (lit "unknown")) (payload !! lit "source");
             sr_metadata := payload |}
  end.

(** [search_documents(query, top_k)] *)
Definition search_documents_body (query : str) (top_k : Z)
    : M (list SearchResult) :=
  get_embedder ;;;
  query_vector <- embed_query query ;;
  search_results <- qdrant_search query_vector top_k ;;
  map_m format_result search_results.

Definition search_documents (query : str) (top_k : Z)
    : M (list SearchResult) :=
  try_except (search_documents_body query top_k) (λ _, ret []).

End WithServices.
End Retriever.

(** ** rag_engine/generator.py *)

Module Generator.
Import Py World World.Notations Retriever.

(** An entry of the ["sources"] list of an answer. *)
Record Source := {
  source : value;
  score : float;
  text_preview : str
}.

(** The dictionary returned by [generate_answer]; the keys ["model"]
    and ["error"] are present on some paths only. *)
Record Answer := {
  answer : str;
  sources : list Source;
  context_used : bool;
  model : option str;
  error : option str
}.

(** [str(v)], as an f-string interpolates it. *)
Definition value_str (v : value) : str :=
  match v with
  | VStr s => s
  | VInt n => lit (pretty n)
  | VNone => lit "None"
  end.

Definition insufficient_information : str :=
  lit "I don't have enough information to answer that question. Please update the knowledge base.".

Definition no_context_answer : Answer :=
  {| answer := insufficient_information;
     sources := [];
     context_used := false;
     model := None;
     error := None |}.

(** The dictionary of the [except] branch. *)
Definition error_answer (e : exn) : Answer :=
  {| answer := lit "Error generating answer: " ++ exn_str e;
     sources := [];
     context_used := false;
     model := None;
     error := Some (exn_str e) |}.

Definition system_prompt : str :=
  join nl
    [ lit "You are CodeLens, an expert AI assistant for developers. ";
      lit "Your role is to answer questions about developer documentation and frameworks accurately.";
      empty_str;
      lit "Instructions:";
      lit "- Use ONLY the provided context to answer questions";
      lit "- If the context doesn't contain the answer, say so honestly";
      lit "- Be concise but comprehensive";
      lit "- Use code examples when relevant";
      lit "- Cite sources when possible using [Source N] notation";
      lit "- Format your answers with proper markdown when appropriate" ].

Definition user_prompt (context query : str) : str :=
  lit "Context from documentation:" ++ nl ++ context ++ nl ++ nl
    ++ lit "Question: " ++ query ++ nl ++ nl ++ lit "Answer:".

(** One round of the loop over the search results: the context line
    and the source entry. [len] of a text that is not a string is a
    [TypeError]. *)
Definition describe_result (numbered : Z * SearchResult)
    : M (str * Source) :=
  let '(i, result) := numbered in
  let part :=
    lit "[Source " ++ lit (pretty i) ++ lit "]: "
      ++ value_str (sr_text result) in
  match sr_text result with
  | VStr text =>
      ret (part,
           {| source := sr_source result;
              score := sr_score result;
              text_preview :=
                if len text >? 200 then slice text 0 200 ++ lit "..."
                else text |})
  | _ => raise (TypeError_len (sr_text result))
  end.

Section WithServices.
Context `{svc : Services}.

(** The [try] block of [generate_answer]. The sampling parameters of
    the completion request (temperature 0.7, 1024 tokens, top_p 1,
    no streaming) are constants of the call. *)
Definition generate_answer_body (query : str) (top_k : Z) : M Answer :=
  search_results <- search_documents query top_k ;;
  if negb (truthy search_results) then ret no_context_answer
  else
    described <- map_m describe_result (enumerate 1 search_results) ;;
    let context_parts := fst <$> described in
    let sources := snd <$> described in
    let context := join (nl ++ nl) context_parts in
    choices <- lift (groq_create
                       [ (lit "system", system_prompt);
                         (lit "user", user_prompt context query) ]) ;;
    match choices with
    | [] => raise IndexError
    | answer :: _ =>
        ret {| answer := answer;
               sources := sources;
               context_used := true;
               model := Some Config.LLM_MODEL;
               error := None |}
    end.

(** [generate_answer(query, top_k)] *)
Definition generate_answer (query : str) (top_k : Z) : M Answer :=
  try_except (generate_answer_body query top_k)
             (λ e, ret (error_answer e)).

End WithServices.
End Generator.

(** ** rag_engine/updater.py *)

Module Updater.
Import Py World World.Notations Retriever.

(** The dictionary returned by [fetch_page_text]. *)
Record PageData := {
  pd_url : str;
  pd_text : str;
  pd_title : value;
  pd_error : option str
}.

(** An entry of the ["details"] list of the summary. *)
Inductive Detail :=
| DSuccess (url : str) (chunks : Z)
| DFailed (url : str) (error : str)
| DSkipped (url : str) (reason : str).

(** The dictionary returned by [update_from_urls]. *)
Record Summary := {
  total_urls : Z;
  successful : Z;
  failed : Z;
  total_chunks : Z;
  details : list Detail
}.

Definition web_metadata (url : str) (title : value) : gmap str value :=
  <[lit "source" := VStr url]>
    (<[lit "title" := title]> (<[lit "type" := VStr (lit "web_page")]> ∅)).

Definition record_success (url : str) (chunks_added : Z) (r : Summary)
    : Summary :=
  {| total_urls := total_urls r;
     successful := successful r + 1;
     failed := failed r;
     total_chunks := total_chunks r + chunks_added;
     details := details r ++ [DSuccess url chunks_added] |}.

Definition record_failure (d : Detail) (r : Summary) : Summary :=
  {| total_urls := total_urls r;
     successful := successful r;
     failed := failed r + 1;
     total_chunks := total_chunks r;
     details := details r ++ [d] |}.

(** The entry recorded for a URL whose text went to [add_document]. *)
Definition detail_of (url : str) (r : exn + Z) : Detail :=
  match r with
  | inr chunks_added => DSuccess url chunks_added
  | inl e => DFailed url (exn_str e)
  end.

Definition is_success (d : Detail) : bool :=
  match d with DSuccess _ _ => true | _ => false end.

Definition successes (ds : list Detail) : Z :=
  foldr (λ d acc, (if is_success d then 1 else 0) + acc) 0 ds.

(** Entries that are not successes: failed and skipped alike. *)
Definition failures (ds : list Detail) : Z :=
  foldr (λ d acc, (if is_success d then 0 else 1) + acc) 0 ds.

Definition chunk_total (ds : list Detail) : Z :=
  foldr (λ d acc, match d with DSuccess _ n => n | _ => 0 end + acc) 0 ds.

(** A summary whose counters agree with its list of entries. *)
Definition tallied (r : Summary) : Prop :=
  successful r = successes (details r)
  ∧ failed r = failures (details r)
  ∧ total_chunks r = chunk_total (details r).

Section WithServices.
Context `{svc : Services}.

(** [fetch_page_text(url)]: both [except] branches build the same
    dictionary. *)
Definition fetch_page_text (url : str) : PageData :=
  match http_scrape url with
  | inr (title, full_text) =>
      {| pd_url := url; pd_text := full_text; pd_title := title;
         pd_error := None |}
  | inl e =>
      {| pd_url := url; pd_text := empty_str; pd_title := VStr empty_str;
         pd_error := Some (exn_str e) |}
  end.

(** The body of the loop of [update_from_urls] for one URL. *)
Definition process_url (url : str) (results : Summary) : M Summary :=
  let page_data := fetch_page_text url in
  if truthy (pd_text page_data) && (len (pd_text page_data) >? 100) then
    try_except
      (chunks_added <-
         add_document (pd_text page_data)
           (Some (web_metadata url (pd_title page_data))) 10 ;;
       ret (record_success url chunks_added results))
      (λ e, ret (record_failure (DFailed url (exn_str e)) results))
  else
    ret (record_failure
           (DSkipped url (lit "insufficient_content")) results).

(** [time.sleep(seconds)] *)
Definition time_sleep (seconds : float) : M () :=
  λ w, match sleep_fault seconds with
       | Some e => (inl e, w)
       | None => (inr (), w)
       end.

(** One round of the loop of [update_from_urls]: the URL numbered [i]
    (from 1) is processed, and a delay follows unless it is the last. *)
Definition loop_round (urls : list str) (batch_delay : float)
    (numbered : Z * str) (results : Summary) : M Summary :=
  let '(i, url) := numbered in
  results <- process_url url results ;;
  (if i <? len urls then time_sleep batch_delay else ret ()) ;;;
  ret results.

(** [update_from_urls(urls, batch_delay)] *)
Definition update_from_urls (urls : list str) (batch_delay : float)
    : M Summary :=
  init_collection ;;;
  fold_m (loop_round urls batch_delay) (enumerate 1 urls)
    {| total_urls := len urls; successful := 0; failed := 0;
       total_chunks := 0; details := [] |}.

(** [update_single_url(url)] *)
Definition update_single_url (url : str) : M Summary :=
  update_from_urls [url] 1.0%float.

(** What the entry of a URL says about it. *)
Definition url_outcome (url : str) (d : Detail) : Prop :=
  let page := fetch_page_text url in
  (len (pd_text page) < 100 →
   d = DSkipped url (lit "insufficient_content"))
  ∧ (pd_error page ≠ None →
     d = DSkipped url (lit "insufficient_content"))
  ∧ (len (pd_text page) > 100 →
     ∃ w, d = detail_of url
                (fst (add_document (pd_text page)
                        (Some (web_metadata url (pd_title page))) 10 w))).

(** What a URL does to the store, with the entry it gets: met in the
    world [w] it is recorded as [d] and leaves the world [w']. A URL that
    is skipped writes nothing; a URL with a text of more than 100
    characters has the result of [add_document] on that text, and leaves
    what that call wrote. *)
Definition url_routed (url : str) (w : world) (d : Detail) (w' : world)
    : Prop :=
  let page := fetch_page_text url in
  (len (pd_text page) < 100 ∨ pd_error page ≠ None →
   d = DSkipped url (lit "insufficient_content") ∧ w' = w)
  ∧ (len (pd_text page) > 100 →
     let run := add_document (pd_text page)
                  (Some (web_metadata url (pd_title page))) 10 w in
     d = detail_of url (fst run) ∧ w' = snd run).

End WithServices.
End Updater.

(** ** rag_engine/pdf_loader.py *)

Module PdfLoader.
Import Py World World.Notations Retriever.

(** The dictionary returned by [load_pdf]. *)
Inductive LoadResult :=
| LoadFailed (error : str)
| LoadSuccess (file : str) (pages chunks_added text_length : Z).

Definition pdf_metadata (file_path : str) (num_pages : Z)
    : gmap str value :=
  <[lit "source" := VStr (basename file_path)]>
    (<[lit "type" := VStr (lit "pdf")]>
       (<[lit "pages" := VInt num_pages]>
          (<[lit "file_path" := VStr file_path]> ∅))).

(** The loop over the pages: the non-empty page texts, in order. *)
Fixpoint extract_pages (pages : list (exn + str)) : M (list str) :=
  match pages with
  | [] => ret []
  | page :: rest =>
      page_text <- lift page ;;
      text_parts <- extract_pages rest ;;
      ret (if truthy page_text then page_text :: text_parts
           else text_parts)
  end.

Definition insufficient_text : str :=
  lit "Insufficient text extracted from PDF".

Section WithServices.
Context `{svc : Services}.

(** The [try] block of [load_pdf]. *)
Definition load_pdf_body (file_path : str) : M LoadResult :=
  init_collection ;;;
  if negb (os_path_exists file_path) then
    ret (LoadFailed (lit "File not found: " ++ file_path))
  else
    pages <- lift (pdf_pages file_path) ;;
    let num_pages := len pages in
    text_parts <- extract_pages pages ;;
    let full_text := join (nl ++ nl) text_parts in
    if negb (truthy full_text) || (len full_text <? 100) then
      ret (LoadFailed insufficient_text)
    else
      chunks_added <-
        add_document full_text
          (Some (pdf_metadata file_path num_pages)) 10 ;;
      ret (LoadSuccess file_path num_pages chunks_added (len full_text)).

(** [load_pdf(file_path)] *)
Definition load_pdf (file_path : str) : M LoadResult :=
  try_except (load_pdf_body file_path)
             (λ e, ret (LoadFailed (exn_str e))).

End WithServices.
End PdfLoader.

(** ** Concrete services and worlds

    Small environments on which the functions above can be run. *)

Module Demo.
Import Py World.

Definition guide_url : str := lit "https://docs.example/guide".
Definition stub_url : str := lit "https://docs.example/stub".
Definition down_url : str := lit "https://down.example/".
Definition short_pdf : str := lit "/tmp/upload/short.pdf".

(** A page text of 150 characters. *)
Definition guide_text : str := replicate 150 120%N.

(** A page of a PDF with 50 characters of text. *)
Definition short_page : str :=
  lit "This page carries fifty characters of text, total.".

(** Every service answers. *)
Definition quiet : Services :=
  {| model_load := λ _, None;
     model_encode := λ texts, inr ((λ _, [0.5%float; 0.25%float]) <$> texts);
     qdrant_get_collections_fault := λ _, None;
     qdrant_create_collection_fault := λ _, None;
     qdrant_upsert_fault := λ _ _, None;
     qdrant_search_fault := λ _ _ _, None;
     qdrant_rank := λ _ stored,
       (λ p, {| sp_score := 0.75%float;
                sp_payload := Some (point_payload p) |}) <$> stored;
     groq_create := λ _, inr [lit "FastAPI is a web framework."];
     http_scrape := λ url,
       if bool_decide (url = guide_url)
       then inr (VStr (lit "Guide"), guide_text)
       else if bool_decide (url = stub_url)
            then inr (VStr (lit "Stub"), lit "too short")
            else inl (Exception (lit "connection timed out"));
     os_path_exists := λ path, bool_decide (path = short_pdf);
     pdf_pages := λ _, inr [inr short_page];
     sleep_fault := λ seconds,
       if (seconds <? 0)%float
       then Some (Exception (lit "sleep length must be non-negative"))
       else None |}.

(** The vector store cannot be reached. *)
Definition store_down : Services :=
  {| model_load := model_load (Services := quiet);
     model_encode := model_encode (Services := quiet);
     qdrant_get_collections_fault :=
       λ _, Some (Exception (lit "connection refused"));
     qdrant_create_collection_fault :=
       λ _, Some (Exception (lit "connection refused"));
     qdrant_upsert_fault :=
       λ _ _, Some (Exception (lit "connection refused"));
     qdrant_search_fault :=
       λ _ _ _, Some (Exception (lit "connection refused"));
     qdrant_rank := qdrant_rank (Services := quiet);
     groq_create := groq_create (Services := quiet);
     http_scrape := http_scrape (Services := quiet);
     os_path_exists := os_path_exists (Services := quiet);
     pdf_pages := pdf_pages (Services := quiet);
     sleep_fault := sleep_fault (Services := quiet) |}.

(** The LLM API cannot be reached. *)
Definition llm_down : Services :=
  {| model_load := model_load (Services := quiet);
     model_encode := model_encode (Services := quiet);
     qdrant_get_collections_fault :=
       qdrant_get_collections_fault (Services := quiet);
     qdrant_create_collection_fault :=
       qdrant_create_collection_fault (Services := quiet);
     qdrant_upsert_fault := qdrant_upsert_fault (Services := quiet);
     qdrant_search_fault := qdrant_search_fault (Services := quiet);
     qdrant_rank := qdrant_rank (Services := quiet);
     groq_create := λ _, inl (Exception (lit "API connection error"));
     http_scrape := http_scrape (Services := quiet);
     os_path_exists := os_path_exists (Services := quiet);
     pdf_pages := pdf_pages (Services := quiet);
     sleep_fault := sleep_fault (Services := quiet) |}.

(** No collection yet, nothing loaded. *)
Definition fresh_world : world :=
  {| collections := []; points := []; uuid_counter := 0;
     embedder_instance := false |}.

(** The collection exists and is empty. *)
Definition ready_world : world :=
  {| collections := [Config.COLLECTION_NAME]; points := [];
     uuid_counter := 0; embedder_instance := false |}.

(** The collection holds one chunk of one document. *)
Definition stocked_world : world :=
  {| collections := [Config.COLLECTION_NAME];
     points :=
       [ {| point_id := 0;
            point_vector := [0.5%float; 0.25%float];
            point_payload :=
              <[lit "text" := VStr (lit "FastAPI is a web framework.")]>
                (<[lit "chunk_index" := VInt 0]>
                   (<[lit "source" := VStr (lit "FastAPI Documentation")]>
                      ∅)) |} ];
     uuid_counter := 1; embedder_instance := true |}.

End Demo.

(** ** Contiguous parts of a string *)

Module Substring.
Import Py.

(** A contiguous part of a string. *)
Definition substring_of (part whole : str) : Prop :=
  ∃ before after, whole = before ++ part ++ after.

End Substring.

(** ** rag_engine/chunker.py: the sentence-aware variant *)

Module Sentences.
Import Py.

(** A character of the class [[.!?]]. *)
Definition is_sentence_end (c : N) : bool :=
  ((c =? 46) || (c =? 33) || (c =? 63))%N.

(** [re.split(r'(?<=[.!?])\s+', text)], scanned from left to right.
    [after_end] tells that the previous character is one of [.!?];
    [in_gap] tells that a separator has begun and its white space is
    being consumed; [piece] is the part read since the last separator.
    A separator begins at a white-space character that follows one of
    [.!?] and takes in the whole run of white space. *)
Fixpoint split_sentences_aux (after_end in_gap : bool) (piece s : str)
    : list str :=
  match s with
  | [] => [piece]
  | c :: s' =>
      if isspace c && in_gap then split_sentences_aux false true piece s'
      else if isspace c && after_end
           then piece :: split_sentences_aux false true [] s'
           else split_sentences_aux (is_sentence_end c) false (piece ++ [c]) s'
  end.

Definition split_sentences (text : str) : list str :=
  split_sentences_aux false false [] text.

(** The loop of [chunk_by_sentences] over the sentences, followed by the
    final flush of [current_chunk]. *)
Fixpoint pack_sentences (max_chunk_size : Z) (sentences : list str)
    (current_chunk : str) (chunks : list str) : list str :=
  match sentences with
  | [] =>
      if truthy current_chunk then chunks ++ [strip current_chunk]
      else chunks
  | sentence :: rest =>
      if len current_chunk + len sentence <=? max_chunk_size then
        pack_sentences max_chunk_size rest
          (current_chunk ++ lit " " ++ sentence) chunks
      else
        pack_sentences max_chunk_size rest sentence
          (if truthy current_chunk then chunks ++ [strip current_chunk]
           else chunks)
  end.

(** [chunk_by_sentences(text, max_chunk_size)] *)
Definition chunk_by_sentences (text : str) (max_chunk_size : Z)
    : list str :=
  pack_sentences max_chunk_size (split_sentences text) [] [].

End Sentences.

(** ** rag_engine/updater.py: the white-space clean-up of a page *)

Module Cleanup.
Import Py.

(** [s.split()]: the maximal runs of characters that are not white
    space. [word] is the run being read. *)
Fixpoint split_whitespace_aux (word s : str) : list str :=
  match s with
  | [] => if truthy word then [word] else []
  | c :: s' =>
      if isspace c
      then if truthy word then word :: split_whitespace_aux [] s'
           else split_whitespace_aux [] s'
      else split_whitespace_aux (word ++ [c]) s'
  end.

Definition split_whitespace (s : str) : list str :=
  split_whitespace_aux [] s.

(** A word: not empty and free of white space. *)
Definition is_word (w : str) : Prop :=
  w ≠ [] ∧ Forall (λ c, isspace c = false) w.

(** [" ".join(full_text.split())], the last step of [fetch_page_text]
    before it returns the text. *)
Definition clean_whitespace (full_text : str) : str :=
  join (lit " ") (split_whitespace full_text).

End Cleanup.

(** ** rag_engine/retriever.py: the state of the collection *)

Module StoreInfo.
Import Py World World.Notations Retriever.

(** What [qdrant_client.get_collection] adds to the services: whether
    the request fails, and the vector count it reports (which the store
    may leave out). *)
Class StoreStatus := {
  qdrant_get_collection_fault : world → option exn;
  qdrant_vectors_count : world → option Z
}.

(** The dictionary returned by [get_collection_info]. *)
Inductive CollectionInfo :=
| InfoHealthy (name : str) (vectors_count : option Z) (points_count : Z)
| InfoError (name : str) (error : str).

Section WithServices.
Context `{svc : Services} `{status : StoreStatus}.

(** [qdrant_client.get_collection(COLLECTION_NAME)]: the counts of the
    collection. *)
Definition qdrant_get_collection : M (option Z * Z) :=
  λ w, if bool_decide (Config.COLLECTION_NAME ∈ collections w) then
         match qdrant_get_collection_fault w with
         | Some e => (inl e, w)
         | None => (inr (qdrant_vectors_count w, len (points w)), w)
         end
       else (inl CollectionNotFound, w).

(** [get_collection_info()] *)
Definition get_collection_info : M CollectionInfo :=
  try_except
    (collection_info <- qdrant_get_collection ;;
     ret (InfoHealthy Config.COLLECTION_NAME
            (fst collection_info) (snd collection_info)))
    (λ e, ret (InfoError Config.COLLECTION_NAME (exn_str e))).

End WithServices.
End StoreInfo.

(** ** rag_engine/pdf_loader.py: a directory of PDF files *)

Module PdfBatch.
Import Py World World.Notations Retriever PdfLoader.

(** [os.listdir] *)
Class FileSystem := {
  os_listdir : str → exn + list str
}.

(** [f.endswith('.pdf')] *)
Definition endswith_pdf (f : str) : bool :=
  bool_decide (drop (length f - 4) f = lit ".pdf").

(** [os.path.join(a, p)] on POSIX paths. *)
Definition path_join (a p : str) : str :=
  match p with
  | 47%N :: _ => p
  | _ =>
      if negb (truthy a) || bool_decide (last a = Some 47%N)
      then a ++ p
      else a ++ lit "/" ++ p
  end.

(** The summary dictionary of [load_multiple_pdfs]. *)
Record PdfSummary := {
  total_files : Z;
  pdf_successful : Z;
  pdf_failed : Z;
  pdf_total_chunks : Z;
  pdf_details : list LoadResult
}.

(** What [load_multiple_pdfs] returns: a failure record or the
    summary. *)
Inductive BatchResult :=
| BatchFailed (error : str)
| BatchSummary (summary : PdfSummary).

(** The update of the summary by the result of one file. *)
Definition record_result (result : LoadResult) (r : PdfSummary)
    : PdfSummary :=
  match result with
  | LoadSuccess _ _ chunks_added _ =>
      {| total_files := total_files r;
         pdf_successful := pdf_successful r + 1;
         pdf_failed := pdf_failed r;
         pdf_total_chunks := pdf_total_chunks r + chunks_added;
         pdf_details := pdf_details r ++ [result] |}
  | LoadFailed _ =>
      {| total_files := total_files r;
         pdf_successful := pdf_successful r;
         pdf_failed := pdf_failed r + 1;
         pdf_total_chunks := pdf_total_chunks r;
         pdf_details := pdf_details r ++ [result] |}
  end.

(** Counting over the entries of a summary. *)
Definition loaded (result : LoadResult) : bool :=
  match result with LoadSuccess _ _ _ _ => true | LoadFailed _ => false end.

Definition loaded_chunks (result : LoadResult) : Z :=
  match result with LoadSuccess _ _ n _ => n | LoadFailed _ => 0 end.

Definition count_loaded (results : list LoadResult) : Z :=
  foldr (λ d acc, (if loaded d then 1 else 0) + acc) 0 results.

Definition count_not_loaded (results : list LoadResult) : Z :=
  foldr (λ d acc, (if loaded d then 0 else 1) + acc) 0 results.

Definition sum_chunks (results : list LoadResult) : Z :=
  foldr (λ d acc, loaded_chunks d + acc) 0 results.

Section WithServices.
Context `{svc : Services} `{fs : FileSystem}.

(** The body of the loop over the PDF files. *)
Definition load_one (directory pdf_file : str) (results : PdfSummary)
    : M PdfSummary :=
  let file_path := path_join directory pdf_file in
  result <- load_pdf file_path ;;
  ret (record_result result results).

(** [load_multiple_pdfs(directory)] *)
Definition load_multiple_pdfs (directory : str) : M BatchResult :=
  if negb (os_path_exists directory) then
    ret (BatchFailed (lit "Directory not found: " ++ directory))
  else
    names <- lift (os_listdir directory) ;;
    let pdf_files := List.filter endswith_pdf names in
    if negb (truthy pdf_files) then
      ret (BatchFailed (lit "No PDF files found in " ++ directory))
    else
      results <- fold_m (load_one directory) pdf_files
                   {| total_files := len pdf_files; pdf_successful := 0;
                      pdf_failed := 0; pdf_total_chunks := 0;
                      pdf_details := [] |} ;;
      ret (BatchSummary results).

End WithServices.
End PdfBatch.

(** ** main.py: the endpoints of the RAG path *)

Module Main.
Import Py World World.Notations Retriever Generator.

(** What an endpoint hands to the framework: a body, or the
    [HTTPException] it raised. *)
Inductive response (A : Type) :=
| Ok (body : A)
| HTTPException (status_code : Z) (detail : str).
Arguments Ok {A} body.
Arguments HTTPException {A} status_code detail.

(** The body of a successful [POST /add_document]. *)
Record AddDocumentBody := {
  body_status : str;
  body_chunks_added : Z;
  body_source : str
}.

Section WithServices.
Context `{svc : Services}.

(** [ask(request)] for [POST /ask] *)
Definition ask (query : str) (top_k : Z)
    : world → response Answer * world :=
  λ w, match generate_answer query top_k w with
       | (inr result, w') => (Ok result, w')
       | (inl e, w') => (HTTPException 500 (exn_str e), w')
       end.

(** [add_doc(request)] for [POST /add_document] *)
Definition add_doc (text source : str)
    : world → response AddDocumentBody * world :=
  λ w, match add_document text
               (Some (<[lit "source" := VStr source]> ∅)) 10 w with
       | (inr chunks_added, w') =>
           (Ok {| body_status := lit "success";
                  body_chunks_added := chunks_added;
                  body_source := source |}, w')
       | (inl e, w') => (HTTPException 500 (exn_str e), w')
       end.

End WithServices.
End Main.

(** ** More concrete services *)

Module DemoMore.
Import Py World StoreInfo PdfBatch.

(** The store reports its counts. *)
Definition reporting : StoreStatus :=
  {| qdrant_get_collection_fault := λ _, None;
     qdrant_vectors_count := λ w, Some (len (points w)) |}.

(** A directory with two PDF files and one text file. *)
Definition upload_dir : str := lit "/tmp/upload".

Definition two_pdfs : FileSystem :=
  {| os_listdir := λ _, inr [lit "a.pdf"; lit "notes.txt"; lit "b.pdf"] |}.

(** Every path exists, and [time.sleep] rejects every delay. *)
Definition no_sleep : Services :=
  {| model_load := model_load (Services := Demo.quiet);
     model_encode := model_encode (Services := Demo.quiet);
     qdrant_get_collections_fault :=
       qdrant_get_collections_fault (Services := Demo.quiet);
     qdrant_create_collection_fault :=
       qdrant_create_collection_fault (Services := Demo.quiet);
     qdrant_upsert_fault := qdrant_upsert_fault (Services := Demo.quiet);
     qdrant_search_fault := qdrant_search_fault (Services := Demo.quiet);
     qdrant_rank := qdrant_rank (Services := Demo.quiet);
     groq_create := groq_create (Services := Demo.quiet);
     http_scrape := http_scrape (Services := Demo.quiet);
     os_path_exists := λ _, true;
     pdf_pages := pdf_pages (Services := Demo.quiet);
     sleep_fault := λ _,
       Some (Exception (lit "sleep length must be non-negative")) |}.


(** A PDF of one page with 150 characters of text. *)
Definition long_pdf : Services :=
  {| model_load := model_load (Services := Demo.quiet);
     model_encode := model_encode (Services := Demo.quiet);
     qdrant_get_collections_fault :=
       qdrant_get_collections_fault (Services := Demo.quiet);
     qdrant_create_collection_fault :=
       qdrant_create_collection_fault (Services := Demo.quiet);
     qdrant_upsert_fault := qdrant_upsert_fault (Services := Demo.quiet);
     qdrant_search_fault := qdrant_search_fault (Services := Demo.quiet);
     qdrant_rank := qdrant_rank (Services := Demo.quiet);
     groq_create := groq_create (Services := Demo.quiet);
     http_scrape := http_scrape (Services := Demo.quiet);
     os_path_exists := λ _, true;
     pdf_pages := λ _, inr [inr Demo.guide_text];
     sleep_fault := sleep_fault (Services := Demo.quiet) |}.

(** A text of 1500 characters without white space: three chunks. *)
Definition long_text : str := replicate 1500 120%N.

(** The store accepts a batch only while it holds fewer than two
    points. *)
Definition small_store : Services :=
  {| model_load := model_load (Services := Demo.quiet);
     model_encode := model_encode (Services := Demo.quiet);
     qdrant_get_collections_fault :=
       qdrant_get_collections_fault (Services := Demo.quiet);
     qdrant_create_collection_fault :=
       qdrant_create_collection_fault (Services := Demo.quiet);
     qdrant_upsert_fault := λ w _,
       if decide (length (points w) < 2)%nat then None
       else Some (Exception (lit "storage is full"));
     qdrant_search_fault := qdrant_search_fault (Services := Demo.quiet);
     qdrant_rank := qdrant_rank (Services := Demo.quiet);
     groq_create := groq_create (Services := Demo.quiet);
     http_scrape := http_scrape (Services := Demo.quiet);
     os_path_exists := os_path_exists (Services := Demo.quiet);
     pdf_pages := pdf_pages (Services := Demo.quiet);
     sleep_fault := sleep_fault (Services := Demo.quiet) |}.

End DemoMore.

(* ===================================================================== *)
(** * Part II.  Properties                                                *)
(* ===================================================================== *)

(** ** Strings: stripping and slicing *)

Section PyFacts.
Import Py.

Lemma truthy_nonempty {A} (l : list A) : truthy l = true ↔ l ≠ [].
Proof. destruct l; simpl; split; (congruence || done). Qed.

Lemma lstrip_length s : (length (lstrip s) ≤ length s)%nat.
Proof.
  induction s as [|c s IH]; simpl; [lia|].
  destruct (isspace c); simpl; lia.
Qed.

Lemma lstrip_starts_clean s : starts_clean (lstrip s).
Proof.
  induction s as [|c s IH]; simpl; [done|].
  destruct (isspace c) eqn:Hc; [done | simpl; done].
Qed.

Lemma lstrip_clean s : starts_clean s → lstrip s = s.
Proof. destruct s as [|c s]; simpl; [done|]. by intros ->. Qed.

Lemma lstrip_snoc t c :
  isspace c = false → ∃ u, lstrip (t ++ [c]) = u ++ [c].
Proof.
  intros Hc. induction t as [|a t IH]; simpl.
  - rewrite Hc. by exists [].
  - destruct (isspace a); [done|]. by exists (a :: t).
Qed.

Lemma rstrip_starts_clean s : starts_clean s → starts_clean (rstrip s).
Proof.
  destruct s as [|c s]; [done|]. simpl. intros Hc.
  unfold rstrip. rewrite reverse_cons.
  destruct (lstrip_snoc (reverse s) c Hc) as [u ->].
  by rewrite reverse_app.
Qed.

Lemma strip_length s : (length (strip s) ≤ length s)%nat.
Proof.
  unfold strip, rstrip. rewrite length_reverse.
  etrans; [apply lstrip_length|]. rewrite length_reverse.
  apply lstrip_length.
Qed.

Lemma strip_idempotent s : strip (strip s) = strip s.
Proof.
  unfold strip.
  rewrite (lstrip_clean (rstrip (lstrip s)))
    by apply rstrip_starts_clean, lstrip_starts_clean.
  unfold rstrip. rewrite reverse_involutive.
  by rewrite (lstrip_clean (lstrip _)) by apply lstrip_starts_clean.
Qed.

Lemma lstrip_keeps s c : c ∈ s → isspace c = false → c ∈ lstrip s.
Proof.
  intros Hin Hc. induction s as [|a s IH]; [by apply elem_of_nil in Hin|].
  simpl. destruct (isspace a) eqn:Ha; [|done].
  apply elem_of_cons in Hin as [->|Hin]; [congruence | by apply IH].
Qed.

Lemma strip_keeps s c : c ∈ s → isspace c = false → c ∈ strip s.
Proof.
  intros Hin Hc. unfold strip, rstrip.
  apply elem_of_reverse, lstrip_keeps; [|done].
  by apply elem_of_reverse, lstrip_keeps.
Qed.

Lemma strip_no_whitespace s :
  Forall (λ c, isspace c = false) s → strip s = s.
Proof.
  intros Hs. unfold strip, rstrip.
  assert (Hclean : ∀ t, Forall (λ c, isspace c = false) t → starts_clean t).
  { intros [|a t] Ht; [done|]. by inversion Ht. }
  rewrite (lstrip_clean s) by auto.
  rewrite lstrip_clean; [apply reverse_involutive|].
  apply Hclean. by apply Forall_reverse.
Qed.

Lemma clamp_index_min n hi :
  0 ≤ n → clamp_index n (Z.min hi n) = clamp_index n hi.
Proof.
  intros Hn. unfold clamp_index.
  destruct (Z.ltb_spec hi 0), (Z.ltb_spec (Z.min hi n) 0); lia.
Qed.

Lemma slice_nil {A} lo hi : slice (@nil A) lo hi = [].
Proof. unfold slice. by rewrite drop_nil, take_nil. Qed.

Lemma slice_min_len {A} (l : list A) lo hi :
  slice l lo (Z.min hi (len l)) = slice l lo hi.
Proof.
  unfold slice. rewrite clamp_index_min; [done | unfold len; lia].
Qed.

(** Inside the text and with a positive size, the slice of the loop is
    [take] after [drop]. *)
Lemma slice_window {A} (l : list A) (a : nat) (size : Z) :
  (a ≤ length l)%nat → 0 < size →
  slice l (Z.of_nat a) (Z.min (Z.of_nat a + size) (len l))
  = take (Z.to_nat size) (drop a l).
Proof.
  intros Ha Hsize. rewrite slice_min_len. unfold slice, clamp_index, len.
  destruct (Z.ltb_spec (Z.of_nat a) 0); [lia|].
  destruct (Z.ltb_spec (Z.of_nat a + size) 0); [lia|].
  rewrite (Z.min_l (Z.of_nat a)) by lia. rewrite Nat2Z.id.
  destruct (Z.le_ge_cases (Z.of_nat a + size) (Z.of_nat (length l))).
  - rewrite Z.min_l by lia. f_equal. lia.
  - rewrite Z.min_r by lia.
    rewrite !take_ge; [done | rewrite length_drop; lia ..].
Qed.

End PyFacts.

(** ** The chunker *)

Section ChunkerFacts.
Import Py Chunker.

(** *** Termination of the loop *)

(** The distance from [start] to the end of the text bounds the
    number of rounds still to run. *)
Lemma chunk_loop_terminates fuel text chunk_size overlap start chunks :
  Z.max 0 (len text - start) < Z.of_nat fuel →
  is_Some (chunk_loop fuel text chunk_size overlap start chunks).
Proof.
  revert start chunks.
  induction fuel as [|fuel IH]; intros start chunks Hfuel; [lia|].
  simpl. destruct (Z.ltb_spec start (len text)); [|done].
  destruct (Z.leb_spec chunk_size overlap); [done|].
  apply IH. lia.
Qed.

(** More fuel does not change a result. *)
Lemma chunk_loop_more_fuel fuel extra text chunk_size overlap start chunks r :
  chunk_loop fuel text chunk_size overlap start chunks = Some r →
  chunk_loop (fuel + extra) text chunk_size overlap start chunks = Some r.
Proof.
  revert start chunks.
  induction fuel as [|fuel IH]; intros start chunks; [done|].
  simpl. destruct (start <? len text); [|done].
  destruct (chunk_size <=? overlap); [done|]. apply IH.
Qed.

Lemma chunk_text_fuel_enough text chunk_size overlap extra :
  chunk_text_fuel (S (length text) + extra) text chunk_size overlap
  = Some (chunk_text text chunk_size overlap).
Proof.
  unfold chunk_text, chunk_text_fuel.
  destruct (negb (truthy text) || (len text =? 0)); [done|].
  destruct (chunk_loop_terminates (S (length text)) text chunk_size
              overlap 0 []) as [r Hr]; [unfold len; lia|].
  rewrite Hr. cbn [default]. by apply chunk_loop_more_fuel.
Qed.

(** *** What the loop appends *)

(** Every chunk the loop appends is a non-empty stripped string. *)
Lemma chunk_loop_invariant (Q : str → Prop)
    fuel text chunk_size overlap start chunks r :
  (∀ s, strip s ≠ [] → Q (strip s)) →
  Forall Q chunks →
  chunk_loop fuel text chunk_size overlap start chunks = Some r →
  Forall Q r.
Proof.
  intros HQ. revert start chunks.
  induction fuel as [|fuel IH]; intros start chunks Hchunks; [done|].
  simpl. destruct (start <? len text); [|congruence].
  set (chunk := strip (slice text start _)).
  assert (Hnext : Forall Q (if truthy chunk then chunks ++ [chunk] else chunks)).
  { destruct (truthy chunk) eqn:Ht; [|done].
    apply Forall_app; split; [done|]. apply Forall_singleton, HQ.
    by apply truthy_nonempty. }
  destruct (chunk_size <=? overlap); [congruence|]. by apply IH.
Qed.

Lemma chunk_text_invariant (Q : str → Prop) text chunk_size overlap :
  (∀ s, strip s ≠ [] → Q (strip s)) →
  Forall Q (chunk_text text chunk_size overlap).
Proof.
  intros HQ.
  pose proof (chunk_text_fuel_enough text chunk_size overlap 0) as Hrun.
  unfold chunk_text_fuel in Hrun.
  destruct (negb (truthy text) || (len text =? 0)).
  - injection Hrun as <-. constructor.
  - eapply chunk_loop_invariant; [done | constructor | done].
Qed.

(** With [chunk_size <= overlap] the loop runs one round. *)
Lemma chunk_text_single_round text chunk_size overlap :
  chunk_size ≤ overlap →
  chunk_text text chunk_size overlap
  = let chunk := strip (slice text 0 chunk_size) in
    if truthy chunk then [chunk] else [].
Proof.
  intros Hle. unfold chunk_text, chunk_text_fuel.
  destruct text as [|c text]; [by rewrite slice_nil|].
  cbn [truthy negb orb]. unfold len at 1.
  destruct (Z.eqb_spec (Z.of_nat (length (c :: text))) 0) as [E|_];
    [simpl in E; lia|].
  cbn [chunk_loop].
  destruct (Z.ltb_spec 0 (len (c :: text))) as [_|E];
    [|unfold len in E; simpl in E; lia].
  destruct (Z.leb_spec chunk_size overlap); [|lia].
  rewrite Z.add_0_l, slice_min_len. cbn zeta.
  by destruct (truthy (strip (slice (c :: text) 0 chunk_size))).
Qed.

End ChunkerFacts.

(** *** The chunks are the stripped windows *)

Section Windows.
Import Py Chunker.

Lemma window_count_spec text step k :
  (0 < step)%nat →
  (k < window_count text step)%nat ↔ (k * step < length text)%nat.
Proof.
  intros Hstep. unfold window_count. split.
  - intros Hk.
    pose proof (Nat.Div0.mul_div_le (length text + step - 1) step) as Hq.
    nia.
  - intros Hk.
    assert (S k ≤ (length text + step - 1) `div` step)%nat; [|lia].
    apply Nat.div_le_lower_bound; nia.
Qed.

Lemma window_count_le_length text step :
  (0 < step)%nat → (window_count text step ≤ length text)%nat.
Proof.
  intros Hstep.
  destruct (decide (window_count text step ≤ length text)%nat) as [|Hgt];
    [done|].
  assert (length text < window_count text step)%nat as Hk by lia.
  apply window_count_spec in Hk; [nia | done].
Qed.

Lemma window_length text chunk_size step k :
  (length (window text chunk_size step k) ≤ chunk_size)%nat.
Proof. unfold window. rewrite length_take. lia. Qed.

Lemma window_nonempty text chunk_size step k :
  (0 < chunk_size)%nat → (k * step < length text)%nat →
  window text chunk_size step k ≠ [].
Proof.
  intros Hsize Hk Hnil. apply (f_equal length) in Hnil.
  unfold window in Hnil. rewrite length_take, length_drop in Hnil.
  simpl in Hnil. lia.
Qed.

Section Loop.
Variables (text : str) (chunk_size overlap : Z).
Hypothesis Hparams : 0 ≤ overlap < chunk_size.

Let step : nat := Z.to_nat (chunk_size - overlap).

Lemma chunk_loop_windows j : ∀ k fuel chunks,
  (k + j)%nat = window_count text step →
  (j < fuel)%nat →
  chunk_loop fuel text chunk_size overlap (Z.of_nat (k * step)) chunks
  = Some (chunks ++
            filter (λ c, c ≠ [])
              (strip <$> (window text (Z.to_nat chunk_size) step
                            <$> seq k j))).
Proof using Hparams.
  assert (0 < step)%nat as Hstep by (unfold step; lia).
  induction j as [|j IH]; intros k fuel chunks Hcount Hfuel;
    (destruct fuel as [|fuel]; [lia|]); cbn [chunk_loop].
  - assert (¬ (k * step < length text)%nat) as Hend.
    { rewrite <- window_count_spec by done. lia. }
    destruct (Z.ltb_spec (Z.of_nat (k * step)) (len text)) as [E|_];
      [unfold len in E; lia|].
    by rewrite app_nil_r.
  - assert (k * step < length text)%nat as Hin.
    { rewrite <- window_count_spec by done. lia. }
    destruct (Z.ltb_spec (Z.of_nat (k * step)) (len text)) as [_|E];
      [|unfold len in E; lia].
    destruct (Z.leb_spec chunk_size overlap); [lia|].
    rewrite slice_window by lia.
    replace (Z.of_nat (k * step) + (chunk_size - overlap))
      with (Z.of_nat (S k * step)) by (unfold step; lia).
    rewrite IH by lia.
    cbn [seq fmap list_fmap]. rewrite filter_cons.
    fold (window text (Z.to_nat chunk_size) step k).
    set (chunk := strip (window text (Z.to_nat chunk_size) step k)).
    destruct chunk as [|c chunk'] eqn:Hchunk; cbn [truthy].
    + by rewrite decide_False by auto.
    + rewrite decide_True by done. by rewrite <- app_assoc.
Qed.

Lemma chunk_text_is_windows :
  chunk_text text chunk_size overlap
  = filter (λ c, c ≠ [])
      (strip <$> windows text (Z.to_nat chunk_size) (Z.to_nat overlap)).
Proof using Hparams.
  assert (0 < step)%nat as Hstep by (unfold step; lia).
  pose proof (chunk_text_fuel_enough text chunk_size overlap 0) as Hrun.
  unfold windows.
  replace (Z.to_nat chunk_size - Z.to_nat overlap)%nat with step
    by (unfold step; lia).
  unfold chunk_text_fuel in Hrun.
  destruct text as [|c text'] eqn:Htext.
  - clear Hrun.
    assert (window_count [] step = 0%nat) as ->; [|done].
    pose proof (window_count_le_length [] step Hstep). simpl in *. lia.
  - rewrite <- Htext in *.
    replace (negb (truthy text) || (len text =? 0)) with false in Hrun
      by (subst text; done).
    change 0 with (Z.of_nat (0 * step)) in Hrun at 1.
    rewrite (chunk_loop_windows (window_count text step)) in Hrun.
    + by injection Hrun as <-.
    + done.
    + pose proof (window_count_le_length text step Hstep). lia.
Qed.

End Loop.

(** *** The windows tile the text *)

Lemma concat_pieces (l : str) (s a m : nat) :
  concat ((λ j, take s (drop (a + j * s) l)) <$> seq 0 m)
  = take (m * s) (drop a l).
Proof.
  induction m as [|m IH]; [done|].
  rewrite seq_S, fmap_app, concat_app, IH.
  replace (S m * s)%nat with (m * s + s)%nat by lia.
  rewrite <- (take_take_drop (drop a l) (m * s) s), drop_drop.
  simpl. by rewrite app_nil_r.
Qed.

Lemma leading_portions_concat text chunk_size overlap :
  (overlap < chunk_size)%nat →
  concat (leading_portions (chunk_size - overlap)
            (windows text chunk_size overlap)) = text.
Proof.
  intros Hparams. unfold leading_portions, windows.
  set (step := (chunk_size - overlap)%nat).
  rewrite <- list_fmap_compose.
  rewrite (list_fmap_ext _ (λ j, take step (drop (0 + j * step) text))).
  2:{ intros i k _. unfold compose, window. rewrite take_take. f_equal.
      unfold step. lia. }
  rewrite concat_pieces. simpl. apply take_ge.
  assert (¬ (window_count text step * step < length text)%nat); [|lia].
  rewrite <- window_count_spec by (unfold step; lia). lia.
Qed.

Lemma unique_portions_concat text chunk_size overlap :
  (overlap < chunk_size)%nat →
  concat (unique_portions overlap (windows text chunk_size overlap)) = text.
Proof.
  intros Hparams. unfold windows.
  set (step := (chunk_size - overlap)%nat).
  assert (0 < step)%nat as Hstep by (unfold step; lia).
  destruct (window_count text step) as [|n] eqn:Hcount.
  - pose proof (window_count_spec text step 0 Hstep) as Hspec.
    destruct text; [done|]. simpl in Hspec. lia.
  - cbn [seq fmap list_fmap unique_portions concat].
    rewrite <- (fmap_S_seq 0), <- !list_fmap_compose.
    rewrite (list_fmap_ext _
               (λ j, take step (drop (chunk_size + j * step) text))).
    2:{ intros i k _. unfold compose, window.
        replace chunk_size with (overlap + step)%nat at 1 by (unfold step; lia).
        rewrite <- take_drop_commute, drop_drop. do 2 f_equal.
        unfold step. lia. }
    rewrite concat_pieces. unfold window. simpl. rewrite take_take_drop.
    apply take_ge.
    assert (¬ (S n * step < length text)%nat) as Hend.
    { rewrite <- window_count_spec by done. lia. }
    unfold step in *. lia.
Qed.

End Windows.

(** *** What stripping removes is white space *)

Section StrippedWindows.
Import Py Chunker.

Lemma lstrip_split w :
  ∃ lead, w = lead ++ lstrip w ∧ Forall (λ c, isspace c = true) lead.
Proof.
  induction w as [|c w (lead & Hw & Hlead)]; [by exists []|].
  simpl. destruct (isspace c) eqn:Hc.
  - exists (c :: lead). split; [by rewrite <- app_comm_cons, <- Hw|].
    by constructor.
  - by exists [].
Qed.

Lemma rstrip_split t :
  ∃ trail, t = rstrip t ++ trail ∧ Forall (λ c, isspace c = true) trail.
Proof.
  destruct (lstrip_split (reverse t)) as (lead & Ht & Hlead).
  exists (reverse lead). split; [|by apply Forall_reverse].
  unfold rstrip. rewrite <- reverse_app, <- Ht. by rewrite reverse_involutive.
Qed.

Lemma strip_split w :
  ∃ lead trail,
    w = lead ++ strip w ++ trail
    ∧ Forall (λ c, isspace c = true) lead
    ∧ Forall (λ c, isspace c = true) trail
    ∧ length lead = leading_whitespace w.
Proof.
  destruct (lstrip_split w) as (lead & Hw & Hlead).
  destruct (rstrip_split (lstrip w)) as (trail & Ht & Htrail).
  exists lead, trail. fold (strip w) in Ht. split; [by rewrite <- Ht|].
  split; [done|]. split; [done|].
  unfold leading_whitespace. rewrite Hw at 1. rewrite length_app. lia.
Qed.

Lemma remove_whitespace_all l :
  Forall (λ c, isspace c = true) l → remove_whitespace l = [].
Proof.
  unfold remove_whitespace. induction 1 as [|c l Hc _ IH]; [done|].
  rewrite filter_cons. destruct (decide (isspace c = false)); [congruence|done].
Qed.

Lemma remove_whitespace_app l k :
  remove_whitespace (l ++ k) = remove_whitespace l ++ remove_whitespace k.
Proof. apply filter_app. Qed.

Lemma remove_whitespace_concat ls :
  remove_whitespace (concat ls) = concat (remove_whitespace <$> ls).
Proof.
  induction ls as [|l ls IH]; [done|].
  simpl. by rewrite remove_whitespace_app, IH.
Qed.

(** Beyond its first [n] characters, a window and its chunk hold the same
    characters other than white space. *)
Lemma remove_whitespace_drop n w :
  remove_whitespace (drop n w) = remove_whitespace (chunk_unique n w).
Proof.
  unfold chunk_unique.
  destruct (strip_split w) as (lead & trail & Hw & Hlead & Htrail & <-).
  rewrite Hw at 1.
  destruct (decide (n ≤ length lead)%nat) as [Hle|Hgt].
  - rewrite drop_app_le by done.
    replace (n - length lead)%nat with 0%nat by lia.
    rewrite !remove_whitespace_app, drop_0.
    rewrite (remove_whitespace_all (drop n lead)) by by apply Forall_drop.
    rewrite (remove_whitespace_all trail) by done.
    by rewrite app_nil_r.
  - rewrite drop_app_ge by lia.
    destruct (decide (n - length lead ≤ length (strip w))%nat) as [Hin|Hout].
    + rewrite drop_app_le by done. rewrite remove_whitespace_app.
      rewrite (remove_whitespace_all trail) by done.
      by rewrite app_nil_r.
    + rewrite drop_app_ge by lia.
      rewrite (drop_ge (strip w)) by lia.
      by rewrite remove_whitespace_all by by apply Forall_drop.
Qed.

Lemma filter_parts_fst (ps : list (list N * list N)) :
  (filter (λ part, part.1 ≠ []) ps).*1 = filter (λ c, c ≠ []) ps.*1.
Proof.
  induction ps as [|[c u] ps IH]; [done|].
  cbn [fmap list_fmap fst]. rewrite !filter_cons. cbn [fst].
  destruct (decide (c ≠ [])); cbn [fmap list_fmap fst]; by rewrite IH.
Qed.

Lemma filter_parts_snd (ps : list (list N * list N)) :
  Forall (λ part, part.1 = [] → part.2 = []) ps →
  concat (filter (λ part, part.1 ≠ []) ps).*2 = concat ps.*2.
Proof.
  induction 1 as [|[c u] ps Hp _ IH]; [done|].
  rewrite filter_cons. cbn [fst snd] in *.
  destruct (decide (c ≠ [])) as [|Hnil]; cbn [fmap list_fmap snd concat].
  - by rewrite IH.
  - rewrite IH, Hp; [done|]. destruct c; [done | by destruct Hnil].
Qed.

Lemma chunk_unique_empty n w : strip w = [] → chunk_unique n w = [].
Proof. unfold chunk_unique. intros ->. apply drop_nil. Qed.

Lemma chunk_parts_chunks overlap ws :
  (chunk_parts overlap ws).*1 = filter (λ c, c ≠ []) (strip <$> ws).
Proof.
  unfold chunk_parts, str. rewrite filter_parts_fst. f_equal.
  destruct ws as [|w rest]; [done|].
  cbn [fmap list_fmap fst]. f_equal.
  rewrite <- list_fmap_compose. by apply list_fmap_ext.
Qed.

Lemma chunk_parts_suffix overlap ws :
  Forall (λ part, part.2 `suffix_of` part.1) (chunk_parts overlap ws).
Proof.
  apply Forall_forall. unfold chunk_parts.
  intros part [_ Hpart]%list_elem_of_filter.
  destruct ws as [|w rest]; [by apply elem_of_nil in Hpart|].
  apply elem_of_cons in Hpart as [->|Hpart].
  - apply suffix_drop.
  - apply list_elem_of_fmap in Hpart as (w' & -> & _). apply suffix_drop.
Qed.

(** The unique portions of the chunks and those of the windows differ by
    white space only. *)
Lemma chunk_parts_whitespace overlap ws :
  remove_whitespace (concat (chunk_parts overlap ws).*2)
  = remove_whitespace (concat (unique_portions overlap ws)).
Proof.
  unfold chunk_parts, str. rewrite filter_parts_snd.
  - destruct ws as [|w rest]; [done|].
    cbn [fmap list_fmap snd concat unique_portions].
    rewrite !remove_whitespace_app.
    rewrite <- (remove_whitespace_drop 0 w), drop_0. f_equal.
    rewrite !remove_whitespace_concat, <- !list_fmap_compose.
    f_equal. apply list_fmap_ext. intros i w' _. simpl.
    symmetry. apply remove_whitespace_drop.
  - apply Forall_forall. intros part Hpart.
    destruct ws as [|w rest]; [by apply elem_of_nil in Hpart|].
    apply elem_of_cons in Hpart as [->|Hpart].
    + apply chunk_unique_empty.
    + apply list_elem_of_fmap in Hpart as (w' & -> & _).
      apply chunk_unique_empty.
Qed.

End StrippedWindows.

(** *** The properties of [chunk_text] *)

Section ChunkTextProperties.
Import Py Chunker.

Lemma windows_elem text chunk_size overlap w :
  w ∈ windows text chunk_size overlap ↔
  ∃ k, (k < window_count text (chunk_size - overlap))%nat
       ∧ w = window text chunk_size (chunk_size - overlap) k.
Proof.
  unfold windows. rewrite list_elem_of_fmap. split.
  - intros (k & -> & Hk). apply elem_of_seq in Hk. exists k. split; [lia|done].
  - intros (k & Hk & ->). exists k. split; [done|]. apply elem_of_seq. lia.
Qed.

(** A character of the text lies in the window that starts at or
    before it. *)
Lemma window_covers text chunk_size overlap p c :
  (overlap < chunk_size)%nat → text !! p = Some c →
  ∃ w, w ∈ windows text chunk_size overlap ∧ c ∈ w.
Proof.
  intros Hparams Hp.
  set (step := (chunk_size - overlap)%nat).
  assert (0 < step)%nat as Hstep by (unfold step; lia).
  pose proof (lookup_lt_Some _ _ _ Hp) as Hlen.
  pose proof (Nat.Div0.mul_div_le p step) as Hlow.
  pose proof (Nat.mul_succ_div_gt p step ltac:(lia)) as Hhigh.
  set (k := (p `div` step)%nat) in *.
  exists (window text chunk_size step k). split.
  - apply windows_elem. exists k. split; [|done].
    apply window_count_spec; [done|]. lia.
  - apply list_elem_of_lookup. exists (p - k * step)%nat.
    unfold window. rewrite lookup_take_lt by (unfold step in *; lia).
    rewrite lookup_drop. rewrite <- Hp. f_equal. lia.
Qed.

Lemma windows_no_whitespace text chunk_size overlap :
  (overlap < chunk_size)%nat →
  Forall (λ c, isspace c = false) text →
  filter (λ c, c ≠ []) (strip <$> windows text chunk_size overlap)
  = windows text chunk_size overlap.
Proof.
  intros Hparams Htext.
  assert (Hall : Forall (λ w, strip w = w ∧ w ≠ [])
                   (windows text chunk_size overlap)).
  { apply Forall_forall. intros w (k & Hk & ->)%windows_elem. split.
    - apply strip_no_whitespace. unfold window.
      by apply Forall_take, Forall_drop.
    - apply window_nonempty; [lia|].
      apply window_count_spec in Hk; [done | lia]. }
  induction Hall as [|w ws [Hw1 Hw2] _ IH]; [done|].
  cbn [fmap list_fmap]. rewrite filter_cons, Hw1.
  rewrite decide_True by done. f_equal. apply IH.
Qed.

(** C10: chunk_text returns on every text and for all parameters (the
    loop ends within its fuel), and every string of the list it returns
    is non-empty and equal to its own stripped form (it neither begins
    nor ends with white space). *)
Theorem chunk_text_chunks_stripped text chunk_size overlap :
  chunk_text_fuel (S (length text)) text chunk_size overlap
  = Some (chunk_text text chunk_size overlap)
  ∧ Forall (λ chunk, chunk ≠ [] ∧ strip chunk = chunk)
           (chunk_text text chunk_size overlap).
Proof.
  split.
  - pose proof (chunk_text_fuel_enough text chunk_size overlap 0) as Hrun.
    by rewrite Nat.add_0_r in Hrun.
  - apply chunk_text_invariant. intros s Hs. split; [done|].
    apply strip_idempotent.
Qed.

(** C2 (as amended): chunk_text terminates on every input: the loop,
    given one unit of fuel per character of the text and one more (or
    any larger amount), returns the list [chunk_text] denotes. When
    overlap >= chunk_size the loop runs a single round and emits at most
    one chunk: the stripped slice text[0:chunk_size] when that is not
    empty, and nothing otherwise. *)
Theorem chunk_text_terminates text chunk_size overlap :
  (∀ extra,
     chunk_text_fuel (S (length text) + extra) text chunk_size overlap
     = Some (chunk_text text chunk_size overlap))
  ∧ (overlap >= chunk_size →
     chunk_text text chunk_size overlap
     = (if truthy (strip (slice text 0 chunk_size))
        then [strip (slice text 0 chunk_size)] else [])
     ∧ (length (chunk_text text chunk_size overlap) ≤ 1)%nat).
Proof.
  split; [apply chunk_text_fuel_enough|].
  intros Hle. rewrite chunk_text_single_round by lia. cbn zeta.
  split; [done|]. destruct (truthy _); simpl; lia.
Qed.

(** C1 (as amended): for 0 <= overlap < chunk_size, chunk_text returns
    (the loop ends within its fuel), in order, the non-empty stripped
    forms of the windows text[k*step : k*step + chunk_size]. The unique
    portions of the windows (the first window whole, every later one
    without its first [overlap] characters) concatenate to the text
    exactly. Every chunk comes with its own unique portion, a suffix of
    the chunk (what it keeps of its window beyond the overlap), and these
    concatenate to the text up to white space: both sides are equal once
    their white-space characters are deleted. No chunk is longer than
    chunk_size. The result is non-empty as soon as the text holds one
    character that is not white space. For a text without white space the
    chunks are the windows, and trimming [overlap] characters from every
    chunk but the first gives back the text. *)
Theorem chunk_text_windows text chunk_size overlap :
  0 ≤ overlap < chunk_size →
  let ws := windows text (Z.to_nat chunk_size) (Z.to_nat overlap) in
  let chunks := chunk_text text chunk_size overlap in
  let parts := chunk_parts (Z.to_nat overlap) ws in
  chunk_text_fuel (S (length text)) text chunk_size overlap = Some chunks
  ∧ chunks = filter (λ c, c ≠ []) (strip <$> ws)
  ∧ concat (unique_portions (Z.to_nat overlap) ws) = text
  ∧ (parts.*1 = chunks
     ∧ Forall (λ part, part.2 `suffix_of` part.1) parts
     ∧ remove_whitespace (concat parts.*2) = remove_whitespace text)
  ∧ Forall (λ chunk, len chunk ≤ chunk_size) chunks
  ∧ ((∃ c, c ∈ text ∧ isspace c = false) → chunks ≠ [])
  ∧ (Forall (λ c, isspace c = false) text →
     concat (unique_portions (Z.to_nat overlap) chunks) = text).
Proof.
  intros Hparams ws chunks parts.
  assert (Z.to_nat overlap < Z.to_nat chunk_size)%nat as Hnat by lia.
  assert (Hchunks : chunks = filter (λ c, c ≠ []) (strip <$> ws))
    by (by apply chunk_text_is_windows).
  assert (Htile : concat (unique_portions (Z.to_nat overlap) ws) = text)
    by (by apply unique_portions_concat).
  split.
  { pose proof (chunk_text_fuel_enough text chunk_size overlap 0) as Hrun.
    by rewrite Nat.add_0_r in Hrun. }
  split; [done|]. split; [done|]. split.
  { split; [by rewrite Hchunks; apply chunk_parts_chunks|].
    split; [apply chunk_parts_suffix|].
    unfold parts. by rewrite chunk_parts_whitespace, Htile. }
  split; [|split].
  - rewrite Hchunks. apply Forall_forall.
    intros c [_ (w & -> & Hw)%list_elem_of_fmap]%list_elem_of_filter.
    apply windows_elem in Hw as (k & _ & ->).
    pose proof (strip_length (window text (Z.to_nat chunk_size)
                  (Z.to_nat chunk_size - Z.to_nat overlap) k)).
    pose proof (window_length text (Z.to_nat chunk_size)
                  (Z.to_nat chunk_size - Z.to_nat overlap) k).
    unfold len. lia.
  - intros (c & [p Hp]%list_elem_of_lookup & Hc) Hnil.
    destruct (window_covers text _ _ p c Hnat Hp) as (w & Hw & Hcw).
    assert (strip w ∈ chunks) as Hin.
    { rewrite Hchunks. apply list_elem_of_filter. split.
      - intros Hs. apply (strip_keeps w c) in Hcw; [|done].
        rewrite Hs in Hcw. by apply elem_of_nil in Hcw.
      - by apply list_elem_of_fmap_2. }
    rewrite Hnil in Hin. by apply elem_of_nil in Hin.
  - intros Htext. rewrite Hchunks. unfold ws.
    by rewrite windows_no_whitespace.
Qed.

End ChunkTextProperties.

(** *** Concrete runs of the chunker *)

Section ChunkTextRuns.
Import Py Chunker.

Lemma chunk_text_windows_witness :
  0 ≤ 2 < 4
  ∧ chunk_text (lit "a  bcdef") 4 2 ≠ []
  ∧ remove_whitespace
      (concat (chunk_parts 2 (windows (lit "a  bcdef") 4 2)).*2)
    = remove_whitespace (lit "a  bcdef").
Proof.
  split; [lia|].
  destruct (chunk_text_windows (lit "a  bcdef") 4 2 ltac:(lia))
    as (_ & _ & _ & (_ & _ & Hparts) & _ & Hnonempty & _).
  split; [|exact Hparts].
  apply Hnonempty. exists 97%N. split; [|reflexivity].
  vm_compute. constructor.
Defined.

Lemma chunk_text_terminates_witness :
  5 >= 5 ∧ chunk_text (lit "hello world") 5 5 = [lit "hello"].
Proof.
  split; [lia|].
  destruct (chunk_text_terminates (lit "hello world") 5 5) as [_ Hone].
  destruct Hone as [Hone _]; [lia|].
  rewrite Hone. reflexivity.
Defined.

(** C1 as stated fails: a text of white space is non-empty and yields
    no chunk. *)
Lemma chunk_text_whitespace_only_text :
  lit " " ≠ [] ∧ 0 ≤ 100 < 800 ∧ chunk_text (lit " ") 800 100 = [].
Proof. split; [done|]. split; [lia | reflexivity]. Qed.

(** Where the unique portion of a chunk begins depends on how much white
    space was stripped from its window. On ["a  bcdef"] with windows of 4
    overlapping by 2 the chunks are ["a  b"], ["bcd"], ["cdef"], ["ef"]
    and their unique portions are ["a  b"], ["cd"], ["ef"] and the empty
    string; trimming a fixed 2 characters from the later chunks, or
    keeping the first 2 of every chunk, loses or repeats characters. *)
Lemma chunk_text_fixed_trim_differs :
  let text := lit "a  bcdef" in
  let chunks := chunk_text text 4 2 in
  (chunk_parts 2 (windows text 4 2)).*2
  = [lit "a  b"; lit "cd"; lit "ef"; []]
  ∧ remove_whitespace (concat (unique_portions 2 chunks))
    ≠ remove_whitespace text
  ∧ remove_whitespace (concat (leading_portions 2 chunks))
    ≠ remove_whitespace text.
Proof.
  split; [vm_compute; reflexivity|].
  split; vm_compute; discriminate.
Qed.

(** C2 as stated fails: with overlap >= chunk_size a non-empty text
    whose first slice is white space yields no chunk at all. *)
Lemma chunk_text_single_round_emits_nothing :
  1 >= 1 ∧ lit " x" ≠ [] ∧ chunk_text (lit " x") 1 1 = [].
Proof. split; [lia|]. split; [done | reflexivity]. Qed.

End ChunkTextRuns.

(** ** The monad of effects *)

Section MonadFacts.
Import World World.Notations.

Lemma bind_inr_inv {A B} (m : M A) (k : A → M B) w y w' :
  bind m k w = (inr y, w') →
  ∃ x w1, m w = (inr x, w1) ∧ k x w1 = (inr y, w').
Proof.
  unfold bind. destruct (m w) as [[e|x] w1]; [done|]. intros Hk. by exists x, w1.
Qed.

Lemma try_except_reraise {A} (m : M A) w :
  try_except m (λ e, raise e) w = m w.
Proof. unfold try_except, raise. by destruct (m w) as [[e|x] w1]. Qed.

(** A [try] whose handler returns a value always returns one. *)
Lemma try_except_total {A} (m : M A) (h : exn → A) w :
  ∃ x w', try_except m (λ e, ret (h e)) w = (inr x, w')
          ∧ (∀ e, fst (m w) = inl e → x = h e)
          ∧ (∀ y, fst (m w) = inr y → x = y)
          ∧ w' = snd (m w).
Proof.
  unfold try_except, ret. destruct (m w) as [[e|x] w1]; simpl.
  - exists (h e), w1. repeat split; congruence.
  - exists x, w1. repeat split; congruence.
Qed.

End MonadFacts.

(** ** The retrieval pipeline *)

Section RetrieverFacts.
Import Py World World.Notations Chunker Embedder Retriever.
Context `{svc : Services}.

Lemma enumerate_app {A} (l1 l2 : list A) start :
  enumerate start (l1 ++ l2)
  = enumerate start l1 ++ enumerate (start + len l1) l2.
Proof.
  revert start. induction l1 as [|x l1 IH]; intros start; simpl.
  - unfold len. simpl. by rewrite Z.add_0_r.
  - rewrite IH. do 3 f_equal. unfold len. simpl length. lia.
Qed.

Lemma enumerate_lookup {A} (l : list A) start i :
  enumerate start l !! i = (λ x, (start + Z.of_nat i, x)) <$> l !! i.
Proof.
  revert start i. induction l as [|x l IH]; intros start [|i]; simpl; try done.
  - by rewrite Z.add_0_r.
  - rewrite IH. destruct (l !! i); simpl; [|done]. do 2 f_equal. lia.
Qed.

Lemma chunk_payloads_app metadata start l1 l2 :
  chunk_payloads metadata start (l1 ++ l2)
  = chunk_payloads metadata start l1
      ++ chunk_payloads metadata (start + len l1) l2.
Proof. unfold chunk_payloads. by rewrite enumerate_app, fmap_app. Qed.

Lemma chunk_payloads_lookup metadata start chunks i :
  chunk_payloads metadata start chunks !! i
  = (λ chunk, make_payload chunk (start + Z.of_nat i) metadata)
      <$> chunks !! i.
Proof.
  unfold chunk_payloads. rewrite list_lookup_fmap, enumerate_lookup.
  by destruct (chunks !! i).
Qed.

Lemma chunk_payloads_length metadata start chunks :
  length (chunk_payloads metadata start chunks) = length chunks.
Proof.
  unfold chunk_payloads. rewrite length_fmap. revert start.
  induction chunks as [|c chunks IH]; intros start; simpl; [done|].
  by rewrite IH.
Qed.

(** The metadata wins over the two fixed keys; without a key
    ["chunk_index"] of its own the payload carries the index. *)
Lemma make_payload_chunk_index chunk index metadata :
  default ∅ metadata !! lit "chunk_index" = None →
  make_payload chunk index metadata !! lit "chunk_index" = Some (VInt index).
Proof.
  intros Hfree. unfold make_payload.
  rewrite lookup_union_r by done.
  rewrite lookup_insert_ne by (vm_compute; discriminate).
  apply lookup_insert_eq.
Qed.

(** Building the points of a batch draws identifiers and nothing else. *)
Lemma make_points_spec metadata batch_start pairs : ∀ k w,
  ∃ new_points w',
    map_m (λ '(i, (chunk, vector)),
             point_id <- uuid4 ;;
             ret {| point_id := point_id;
                    point_vector := vector;
                    point_payload :=
                      make_payload chunk (batch_start + i) metadata |})
          (enumerate k pairs) w
    = (inr new_points, w')
    ∧ collections w' = collections w ∧ points w' = points w
    ∧ point_payload <$> new_points
      = chunk_payloads metadata (batch_start + k) (pairs.*1).
Proof.
  induction pairs as [|[chunk vector] pairs IH]; intros k w.
  - by exists [], w.
  - cbn [enumerate map_m].
    set (w1 := {| collections := collections w; points := points w;
                  uuid_counter := S (uuid_counter w);
                  embedder_instance := embedder_instance w |}).
    destruct (IH (k + 1) w1) as (rest & w' & Hrun & Hcoll & Hpts & Hpay).
    eexists _, w'. split; [|split; [done|split; [done|]]].
    + unfold bind at 1 2. unfold uuid4 at 1. fold w1. unfold ret at 1.
      unfold bind at 1. rewrite Hrun. reflexivity.
    + cbn [fmap list_fmap point_payload]. rewrite Hpay.
      unfold chunk_payloads. cbn [fmap list_fmap enumerate fst].
      do 3 f_equal. lia.
Qed.

Lemma zip_fst_same_length {A B} (l : list A) (k : list B) :
  length k = length l → (zip l k).*1 = l.
Proof. intros Hlen. apply fst_zip. lia. Qed.

Section Batches.
Variables (chunks : list str) (metadata : option (gmap str value))
          (batch_size : Z).
Hypothesis encode_length : ∀ texts vectors,
  model_encode texts = inr vectors → length vectors = length texts.
Hypothesis batch_size_pos : 1 ≤ batch_size.

Lemma upload_batch_inv batch_start w w' :
  0 ≤ batch_start < len chunks →
  upload_batch chunks metadata batch_size batch_start w = (inr (), w') →
  ∃ new_points,
    points w' = points w ++ new_points
    ∧ point_payload <$> new_points
      = chunk_payloads metadata batch_start
          (take (Z.to_nat batch_size) (drop (Z.to_nat batch_start) chunks)).
Proof using encode_length batch_size_pos.
  intros Hstart Hrun. unfold upload_batch in Hrun.
  pose proof (slice_window chunks (Z.to_nat batch_start) batch_size) as Hs.
  rewrite Z2Nat.id in Hs by lia. cbn zeta in Hrun.
  rewrite Hs in Hrun by (unfold len in *; lia). clear Hs.
  set (batch_chunks := take _ _) in *.
  apply bind_inr_inv in Hrun as (vectors & w1 & Hembed & Hrun).
  unfold embed_text, lift in Hembed.
  destruct (model_encode batch_chunks) as [e|vs] eqn:Henc; [done|].
  injection Hembed as <- <-.
  apply bind_inr_inv in Hrun as (new_points & w2 & Hmake & Hupsert).
  destruct (make_points_spec metadata batch_start (zip batch_chunks vs)
              0 w) as (pts & w2' & Hmake' & Hcoll & Hpts & Hpay).
  rewrite Hmake' in Hmake. injection Hmake as -> ->.
  exists new_points. split.
  - unfold qdrant_upsert in Hupsert.
    destruct (bool_decide _); [|done].
    destruct (qdrant_upsert_fault w2 new_points); [done|].
    injection Hupsert as <-. simpl. by rewrite Hpts.
  - rewrite Hpay, Z.add_0_r.
    by rewrite zip_fst_same_length by eauto.
Qed.

Lemma upload_batches_inv fuel : ∀ batch_start w w',
  0 ≤ batch_start →
  len chunks - batch_start ≤ Z.of_nat fuel →
  for_each (range_from fuel batch_start (len chunks) batch_size)
           (upload_batch chunks metadata batch_size) w = (inr (), w') →
  ∃ new_points,
    points w' = points w ++ new_points
    ∧ point_payload <$> new_points
      = chunk_payloads metadata batch_start
          (drop (Z.to_nat batch_start) chunks).
Proof using encode_length batch_size_pos.
  assert (Hdone : ∀ batch_start w w',
            len chunks ≤ batch_start →
            @ret () () w = (inr (), w') →
            ∃ new_points,
              points w' = points w ++ new_points
              ∧ point_payload <$> new_points
                = chunk_payloads metadata batch_start
                    (drop (Z.to_nat batch_start) chunks)).
  { intros batch_start w w' Hend [= <-]. exists []. split.
    - by rewrite app_nil_r.
    - rewrite drop_ge by (unfold len in Hend; lia). done. }
  induction fuel as [|fuel IH]; intros batch_start w w' Hstart Hfuel Hrun.
  { apply Hdone; [simpl in Hfuel; lia | done]. }
  cbn [range_from] in Hrun.
  destruct (Z.ltb_spec 0 batch_size); [|lia].
  destruct (Z.ltb_spec batch_start (len chunks)); [|by apply Hdone].
  cbn [for_each] in Hrun.
  apply bind_inr_inv in Hrun as ([] & w1 & Hbatch & Hrest).
  apply upload_batch_inv in Hbatch as (new1 & Hpts1 & Hpay1); [|lia].
  apply IH in Hrest as (new2 & Hpts2 & Hpay2); [|lia..].
  exists (new1 ++ new2). split.
  - by rewrite Hpts2, Hpts1, app_assoc.
  - rewrite fmap_app, Hpay1, Hpay2.
    set (rest := drop (Z.to_nat batch_start) chunks).
    assert (chunk_payloads metadata batch_start rest
            = chunk_payloads metadata batch_start
                (take (Z.to_nat batch_size) rest)
              ++ chunk_payloads metadata
                   (batch_start + len (take (Z.to_nat batch_size) rest))
                   (drop (Z.to_nat batch_size) rest)) as ->
      by (by rewrite <- chunk_payloads_app, take_drop).
    f_equal.
    replace (drop (Z.to_nat (batch_start + batch_size)) chunks)
      with (drop (Z.to_nat batch_size) rest)
      by (unfold rest; rewrite drop_drop; f_equal; lia).
    destruct (decide (Z.to_nat batch_size ≤ length rest)%nat) as [Hfull|Hshort].
    + do 2 f_equal. unfold len. rewrite length_take. lia.
    + by rewrite drop_ge by lia.
Qed.

End Batches.

End RetrieverFacts.

Section RetrieverProperties.
Import Py World World.Notations Chunker Embedder Retriever.
Context `{svc : Services}.

Lemma get_embedder_store w r w' :
  get_embedder w = (r, w') →
  collections w' = collections w ∧ points w' = points w.
Proof.
  unfold get_embedder. destruct (embedder_instance w); [by intros [= _ <-]|].
  destruct (model_load w); by intros [= _ <-].
Qed.

Lemma embed_query_store query w r w' :
  embed_query query w = (r, w') → w' = w.
Proof.
  unfold embed_query, embed_text, lift, bind.
  destruct (model_encode [query]) as [e|[|v vs]]; by intros [= _ <-].
Qed.

(** C3: when chunking the text gives no chunk, add_document returns 0
    and leaves the world as it found it: nothing is embedded and nothing
    is written to the store. *)
Theorem add_document_no_chunks text metadata batch_size w :
  chunk_text_default text = [] →
  add_document text metadata batch_size w = (inr 0, w).
Proof.
  intros Hnone. unfold add_document. rewrite try_except_reraise, Hnone.
  reflexivity.
Qed.

(** C4 (as amended): when add_document returns n for a batch size of at
    least 1, a metadata mapping without a key "chunk_index", and an
    embedder that answers with one vector per text, n is the number of
    chunks of the text and the store has gained exactly one point per
    chunk, in document order, the i-th of them with the payload built
    from the i-th chunk and with chunk_index equal to i. *)
Theorem add_document_chunk_index text metadata batch_size w n w' :
  (∀ texts vectors,
     model_encode texts = inr vectors → length vectors = length texts) →
  1 ≤ batch_size →
  default ∅ metadata !! lit "chunk_index" = None →
  add_document text metadata batch_size w = (inr n, w') →
  let chunks := chunk_text_default text in
  n = len chunks
  ∧ ∃ new_points,
      points w' = points w ++ new_points
      ∧ length new_points = length chunks
      ∧ ∀ i chunk, chunks !! i = Some chunk →
          ∃ p, new_points !! i = Some p
               ∧ point_payload p = make_payload chunk (Z.of_nat i) metadata
               ∧ point_payload p !! lit "chunk_index"
                 = Some (VInt (Z.of_nat i)).
Proof.
  intros Hencode Hsize Hfree Hrun chunks.
  unfold add_document in Hrun. rewrite try_except_reraise in Hrun.
  fold chunks in Hrun.
  assert (∃ new_points,
            n = len chunks ∧ points w' = points w ++ new_points
            ∧ point_payload <$> new_points = chunk_payloads metadata 0 chunks)
    as (new_points & -> & Hpoints & Hpayloads).
  { destruct (truthy chunks) eqn:Hchunks; cbn [negb] in Hrun.
    - apply bind_inr_inv in Hrun as ([] & w1 & Hload & Hrun).
      apply get_embedder_store in Hload as [_ Hpts1].
      destruct (Z.eqb_spec batch_size 0) as [|_]; [lia|].
      apply bind_inr_inv in Hrun as (starts & w2 & [= <- <-] & Hrun).
      apply bind_inr_inv in Hrun as ([] & w3 & Hloop & [= <- <-]).
      unfold range in Hloop.
      apply (upload_batches_inv chunks metadata batch_size Hencode Hsize)
        in Hloop as (new_points & Hpts & Hpay); [|unfold len; lia..].
      exists new_points. by rewrite Hpts, Hpts1.
    - injection Hrun as <- <-. destruct chunks; [|done].
      exists []. by rewrite app_nil_r. }
  split; [done|]. exists new_points. split; [done|]. split.
  - by rewrite <- (length_fmap point_payload), Hpayloads,
         chunk_payloads_length.
  - intros i chunk Hi.
    pose proof (chunk_payloads_lookup metadata 0 chunks i) as Hlookup.
    rewrite <- Hpayloads, list_lookup_fmap, Hi, Z.add_0_l in Hlookup.
    destruct (new_points !! i) as [p|]; [|done].
    injection Hlookup as Hp. exists p. split; [done|]. split; [done|].
    rewrite Hp. by apply make_payload_chunk_index.
Qed.

(** C5: search_documents never raises. Whatever the query, the limit and
    the state of the services, it returns a list; the list is empty
    whenever a step of the search raised, in particular when the
    collection does not exist, and it is empty when the collection holds
    no point (the store ranking no point when it has none). *)
Theorem search_documents_never_raises query top_k w :
  ∃ results w',
    search_documents query top_k w = (inr results, w')
    ∧ (∀ e, fst (search_documents_body query top_k w) = inl e →
            results = [])
    ∧ (Config.COLLECTION_NAME ∉ collections w → results = [])
    ∧ ((∀ v, qdrant_rank v [] = []) → points w = [] → results = []).
Proof.
  unfold search_documents.
  destruct (try_except_total (search_documents_body query top_k)
              (λ _, []) w) as (results & w' & Hrun & Herr & Hok & _).
  exists results, w'. split; [done|]. split; [done|].
  unfold search_documents_body, bind in Herr, Hok.
  destruct (get_embedder w) as [[e|[]] w1] eqn:Hload; [split; eauto|].
  apply get_embedder_store in Hload as [Hcoll Hpts].
  destruct (embed_query query w1) as [[e|v] w2] eqn:Hembed; [split; eauto|].
  apply embed_query_store in Hembed as ->.
  unfold qdrant_search in Herr, Hok. rewrite Hcoll, Hpts in *.
  split.
  - intros Hmissing. rewrite bool_decide_eq_false_2 in Herr by done. eauto.
  - intros Hrank Hempty. rewrite Hempty, Hrank, take_nil in *.
    destruct (bool_decide _); [|eauto].
    destruct (qdrant_search_fault w1 v top_k); [eauto|].
    by apply Hok.
Qed.

End RetrieverProperties.

(** ** The answer generator *)

Section GeneratorProperties.
Import Py World World.Notations Retriever Generator.
Context `{svc : Services}.

(** C6: when retrieval returns no result, generate_answer returns the
    fixed insufficient-information answer, with an empty list of sources
    and context_used false (and asks nothing of the LLM: the world is the
    one the search left). *)
Theorem generate_answer_no_context query top_k w :
  fst (search_documents query top_k w) = inr [] →
  ∃ a,
    generate_answer query top_k w
    = (inr a, snd (search_documents query top_k w))
    ∧ answer a = insufficient_information
    ∧ sources a = []
    ∧ context_used a = false.
Proof.
  intros Hsearch. exists no_context_answer. split; [|done].
  unfold generate_answer, try_except, generate_answer_body, bind.
  destruct (search_documents query top_k w) as [r w1].
  simpl in Hsearch. by rewrite Hsearch.
Qed.

(** C7: generate_answer never raises. It always returns an answer, and
    when any step of its body raised an exception e the answer is the
    error-tagged one: the text "Error generating answer: " followed by
    str(e), no sources, context_used false, and str(e) under "error". *)
Theorem generate_answer_never_raises query top_k w :
  ∃ a w',
    generate_answer query top_k w = (inr a, w')
    ∧ ∀ e, fst (generate_answer_body query top_k w) = inl e →
        answer a = lit "Error generating answer: " ++ exn_str e
        ∧ sources a = []
        ∧ context_used a = false
        ∧ error a = Some (exn_str e).
Proof.
  unfold generate_answer.
  destruct (try_except_total (generate_answer_body query top_k)
              error_answer w) as (a & w' & Hrun & Herr & _).
  exists a, w'. split; [done|].
  intros e He. by rewrite (Herr e He).
Qed.

End GeneratorProperties.

(** ** The batch scraper *)

Section UpdaterProperties.
Import Py World World.Notations Retriever Updater.
Context `{svc : Services}.

Lemma tally_app ds d :
  successes (ds ++ [d]) = successes ds + (if is_success d then 1 else 0)
  ∧ failures (ds ++ [d]) = failures ds + (if is_success d then 0 else 1)
  ∧ chunk_total (ds ++ [d])
    = chunk_total ds + match d with DSuccess _ n => n | _ => 0 end.
Proof.
  induction ds as [|d' ds (IH1 & IH2 & IH3)]; simpl.
  - repeat split; lia.
  - fold (successes (ds ++ [d])) (failures (ds ++ [d]))
         (chunk_total (ds ++ [d])).
    rewrite IH1, IH2, IH3.
    fold (successes ds) (failures ds) (chunk_total ds). repeat split; lia.
Qed.

Lemma tally_length ds : successes ds + failures ds = len ds.
Proof.
  unfold len. induction ds as [|d ds IH]; simpl; [done|].
  fold (successes ds) (failures ds). destruct (is_success d); lia.
Qed.

Lemma fetch_page_text_error url :
  pd_error (fetch_page_text url) ≠ None →
  pd_text (fetch_page_text url) = [].
Proof.
  unfold fetch_page_text. by destruct (http_scrape url) as [e|[title text]].
Qed.

(** One round of the loop adds one entry, keeps the counters in step
    with the entries, and never raises. *)
Lemma process_url_spec url r w :
  tallied r →
  ∃ d r' w',
    process_url url r w = (inr r', w')
    ∧ total_urls r' = total_urls r
    ∧ details r' = details r ++ [d]
    ∧ tallied r'
    ∧ url_outcome url d.
Proof.
  intros (Hs & Hf & Hc). unfold process_url, url_outcome.
  pose proof (fetch_page_text_error url) as Herror.
  set (page := fetch_page_text url) in *.
  destruct (truthy (pd_text page) && (len (pd_text page) >? 100)) eqn:Hgate.
  - apply andb_true_iff in Hgate as [Hnonempty Hlong].
    apply Z.gtb_lt in Hlong.
    unfold try_except, bind.
    set (meta := Some (web_metadata url (pd_title page))).
    destruct (add_document (pd_text page) meta 10 w) as [[e|n] w1] eqn:Hadd.
    + eexists (DFailed url (exn_str e)), _, w1. split; [done|].
      unfold tallied. cbn [record_failure total_urls details successful
                             failed total_chunks].
      destruct (tally_app (details r) (DFailed url (exn_str e)))
        as (-> & -> & ->). cbn [is_success].
      repeat split; try lia.
      * intros Herr. apply Herror in Herr. rewrite Herr in Hlong. done.
      * intros _. exists w. fold meta. by rewrite Hadd.
    + eexists (DSuccess url n), _, w1. split; [done|].
      unfold tallied. cbn [record_success total_urls details successful
                             failed total_chunks].
      destruct (tally_app (details r) (DSuccess url n)) as (-> & -> & ->).
      cbn [is_success].
      repeat split; try lia.
      * intros Herr. apply Herror in Herr. rewrite Herr in Hlong. done.
      * intros _. exists w. fold meta. by rewrite Hadd.
  - eexists (DSkipped url (lit "insufficient_content")), _, w.
    split; [done|].
    unfold tallied. cbn [record_failure total_urls details successful
                           failed total_chunks].
    destruct (tally_app (details r)
                (DSkipped url (lit "insufficient_content")))
      as (-> & -> & ->). cbn [is_success].
    repeat split; try lia.
    intros Hlong. apply andb_false_iff in Hgate as [Hempty|Hshort].
    + destruct (pd_text page); [done | discriminate].
    + rewrite Z.gtb_ltb in Hshort. apply Z.ltb_ge in Hshort. lia.
Qed.

(** A delay that is accepted changes nothing. *)
Lemma loop_round_spec all_urls batch_delay i url r w r1 w1 :
  sleep_fault batch_delay = None →
  process_url url r w = (inr r1, w1) →
  loop_round all_urls batch_delay (i, url) r w = (inr r1, w1).
Proof.
  intros Hsleep Hstep. unfold loop_round, bind, time_sleep.
  rewrite Hstep, Hsleep. by destruct (i <? len all_urls).
Qed.

Lemma process_urls_spec all_urls batch_delay urls : ∀ k r w,
  sleep_fault batch_delay = None →
  tallied r →
  ∃ ds r' w',
    fold_m (loop_round all_urls batch_delay) (enumerate k urls) r w
    = (inr r', w')
    ∧ total_urls r' = total_urls r
    ∧ details r' = details r ++ ds
    ∧ tallied r'
    ∧ Forall2 url_outcome urls ds.
Proof.
  intros k r w Hsleep. revert k r w.
  induction urls as [|url urls IH]; intros k r w Hr.
  - exists [], r, w. rewrite app_nil_r. repeat split; try done; apply Hr.
  - destruct (process_url_spec url r w Hr)
      as (d & r1 & w1 & Hstep & Htotal1 & Hdetails1 & Hr1 & Hd).
    destruct (IH (k + 1) r1 w1 Hr1)
      as (ds & r2 & w2 & Hrest & Htotal2 & Hdetails2 & Hr2 & Hds).
    exists (d :: ds), r2, w2. split; [|split; [|split; [|split]]].
    + cbn [enumerate fold_m]. unfold bind at 1.
      by rewrite (loop_round_spec all_urls batch_delay k url r w r1 w1).
    + congruence.
    + by rewrite Hdetails2, Hdetails1, <- app_assoc.
    + done.
    + by constructor.
Qed.

(** The entry of a round and the world the round leaves are those of
    add_document on the text of the URL, or a skip that writes nothing. *)
Lemma process_url_routed url r w r' w' d :
  process_url url r w = (inr r', w') →
  details r' = details r ++ [d] →
  url_routed url w d w'.
Proof.
  unfold process_url, url_routed.
  pose proof (fetch_page_text_error url) as Herror.
  set (page := fetch_page_text url) in *.
  destruct (truthy (pd_text page) && (len (pd_text page) >? 100)) eqn:Hgate.
  - apply andb_true_iff in Hgate as [_ Hlong]. apply Z.gtb_lt in Hlong.
    unfold try_except, bind, ret.
    set (meta := Some (web_metadata url (pd_title page))).
    destruct (add_document (pd_text page) meta 10 w) as [[e|n] w1] eqn:Hadd;
      intros [= <- <-] Hd;
      cbn [record_failure record_success details] in Hd;
      apply app_inv_head in Hd as [= <-].
    + split.
      * intros [Hshort|Herr]; [lia|].
        apply Herror in Herr. rewrite Herr in Hlong. done.
      * intros _. split; reflexivity.
    + split.
      * intros [Hshort|Herr]; [lia|].
        apply Herror in Herr. rewrite Herr in Hlong. done.
      * intros _. split; reflexivity.
  - unfold ret. intros [= <- <-] Hd.
    cbn [record_failure details] in Hd.
    apply app_inv_head in Hd as [= <-].
    split; [done|].
    intros Hlong. apply andb_false_iff in Hgate as [Hempty|Hshort].
    + destruct (pd_text page); [done | discriminate].
    + rewrite Z.gtb_ltb in Hshort. apply Z.ltb_ge in Hshort. lia.
Qed.

(** The loop over the URLs takes them in turn: each round starts in the
    world the round before it left. *)
Lemma process_urls_routed all_urls batch_delay urls : ∀ k r w,
  sleep_fault batch_delay = None →
  tallied r →
  ∃ ds r' w',
    fold_m (loop_round all_urls batch_delay) (enumerate k urls) r w
    = (inr r', w')
    ∧ total_urls r' = total_urls r
    ∧ details r' = details r ++ ds
    ∧ tallied r'
    ∧ Forall2 url_outcome urls ds
    ∧ in_turn url_routed urls w ds w'.
Proof.
  intros k r w Hsleep. revert k r w.
  induction urls as [|url urls IH]; intros k r w Hr.
  - exists [], r, w. rewrite app_nil_r.
    repeat split; try done; try apply Hr. constructor.
  - destruct (process_url_spec url r w Hr)
      as (d & r1 & w1 & Hstep & Htotal1 & Hdetails1 & Hr1 & Hd).
    destruct (IH (k + 1) r1 w1 Hr1)
      as (ds & r2 & w2 & Hrest & Htotal2 & Hdetails2 & Hr2 & Hds & Hturn).
    exists (d :: ds), r2, w2. split; [|split; [|split; [|split; [|split]]]].
    + cbn [enumerate fold_m]. unfold bind at 1.
      by rewrite (loop_round_spec all_urls batch_delay k url r w r1 w1).
    + congruence.
    + by rewrite Hdetails2, Hdetails1, <- app_assoc.
    + done.
    + by constructor.
    + apply in_turn_cons with w1; [|done].
      by apply (process_url_routed url r w r1 w1 d).
Qed.

(** C8 (as amended): once init_collection has succeeded, and with a
    batch_delay that time.sleep accepts, update_from_urls returns a
    summary with one entry per URL, in order. A URL whose fetch failed or
    whose text is under 100 characters is recorded as skipped; a URL
    whose text is over 100 characters goes through add_document with the
    metadata {source: url, title, type: "web_page"} and is recorded as a
    success with the number of chunks, or as failed with the error when
    add_document raises. The URLs are taken in turn: the call of
    add_document for a URL runs on the store as the URLs before it left
    it, what it writes stays, a skipped URL writes nothing, and the store
    at the end is the one the last URL left. The summary counts
    successes, counts failed and skipped entries together under "failed"
    (there is no separate skip count), and totals the chunks of the
    successes. *)
Theorem update_from_urls_summary urls batch_delay w w0 :
  init_collection w = (inr (), w0) →
  sleep_fault batch_delay = None →
  ∃ summary w',
    update_from_urls urls batch_delay w = (inr summary, w')
    ∧ total_urls summary = len urls
    ∧ Forall2 url_outcome urls (details summary)
    ∧ in_turn url_routed urls w0 (details summary) w'
    ∧ successful summary = successes (details summary)
    ∧ failed summary = failures (details summary)
    ∧ total_chunks summary = chunk_total (details summary)
    ∧ successful summary + failed summary = len urls.
Proof.
  intros Hinit Hsleep. unfold update_from_urls, bind. rewrite Hinit.
  set (r0 := {| total_urls := len urls; successful := 0; failed := 0;
                total_chunks := 0; details := [] |}).
  destruct (process_urls_routed urls batch_delay urls 1 r0 w0 Hsleep)
    as (ds & r & w' & Hrun & Htotal & Hdetails & (Hs & Hf & Hc) & Hds
        & Hturn);
    [done|].
  simpl in Hdetails. exists r, w'. rewrite Hdetails in *.
  repeat split; try done.
  rewrite Hs, Hf, tally_length. unfold len.
  by rewrite (Forall2_length _ _ _ Hds).
Qed.

End UpdaterProperties.

(** ** The PDF loader *)

Section PdfLoaderProperties.
Import Py World World.Notations Retriever PdfLoader.
Context `{svc : Services}.

Lemma init_collection_present w :
  Config.COLLECTION_NAME ∈ collections w →
  qdrant_get_collections_fault w = None →
  init_collection w = (inr (), w).
Proof.
  intros Hin Hfault. unfold init_collection. rewrite try_except_reraise.
  unfold qdrant_get_collections, bind, fault. rewrite Hfault.
  by rewrite bool_decide_eq_true_2.
Qed.

Lemma extract_pages_texts texts w :
  extract_pages (inr <$> texts) w
  = (inr (filter (λ t, t ≠ []) texts), w).
Proof.
  induction texts as [|t texts IH]; [done|].
  cbn [fmap list_fmap extract_pages lift]. unfold bind at 1 2.
  unfold ret at 1. rewrite IH. rewrite filter_cons.
  by destruct t.
Qed.

(** C9 (as amended): for a PDF file that exists, whose pages are all
    read, and whose combined text is under 100 characters, load_pdf
    returns a failure record and performs no ingestion: the only effect
    on the world is that of init_collection. The error of the record is
    "Insufficient text extracted from PDF" whenever init_collection
    succeeds; in particular, when the collection already exists and the
    store answers, the world is left exactly as it was. *)
Theorem load_pdf_insufficient_text file_path texts w :
  os_path_exists file_path = true →
  pdf_pages file_path = inr (inr <$> texts) →
  len (join (nl ++ nl) (filter (λ t, t ≠ []) texts)) < 100 →
  (∃ err, fst (load_pdf file_path w) = inr (LoadFailed err))
  ∧ snd (load_pdf file_path w) = snd (init_collection w)
  ∧ (∀ w0, init_collection w = (inr (), w0) →
       load_pdf file_path w = (inr (LoadFailed insufficient_text), w0))
  ∧ (Config.COLLECTION_NAME ∈ collections w →
     qdrant_get_collections_fault w = None →
     load_pdf file_path w = (inr (LoadFailed insufficient_text), w)).
Proof.
  intros Hexists Hpages Hshort.
  assert (Hok : ∀ w0, init_collection w = (inr (), w0) →
            load_pdf file_path w = (inr (LoadFailed insufficient_text), w0)).
  { intros w0 Hinit.
    unfold load_pdf, try_except, load_pdf_body, bind.
    rewrite Hinit, Hexists, Hpages.
    cbn [negb lift ret]. rewrite extract_pages_texts.
    apply Z.ltb_lt in Hshort. by rewrite Hshort, orb_true_r. }
  destruct (init_collection w) as [[e|[]] w0] eqn:Hinit.
  - unfold load_pdf, try_except, load_pdf_body, bind. rewrite Hinit. simpl.
    split; [by eexists|]. split; [done|]. split; [done|].
    intros Hin Hfault.
    by rewrite init_collection_present in Hinit.
  - rewrite (Hok w0 eq_refl). simpl.
    split; [by eexists|]. split; [done|]. split; [by intros w1 [= <-]|].
    intros Hin Hfault. rewrite init_collection_present in Hinit by done.
    by injection Hinit as <-.
Qed.

End PdfLoaderProperties.

(** ** Concrete runs of the pipeline *)

Section PipelineRuns.
Import Py World Chunker Retriever Generator Updater PdfLoader.

Lemma quiet_encode_length texts vectors :
  model_encode (Services := Demo.quiet) texts = inr vectors →
  length vectors = length texts.
Proof. intros [= <-]. apply length_fmap. Qed.

Lemma add_document_no_chunks_witness :
  chunk_text_default (lit "   ") = []
  ∧ add_document (svc := Demo.quiet) (lit "   ") None 10 Demo.ready_world
    = (inr 0, Demo.ready_world).
Proof.
  split; [reflexivity|].
  apply (add_document_no_chunks (svc := Demo.quiet)). reflexivity.
Defined.

(** A document of three chunks, sent in batches of two to a store that
    holds a point already: the second batch starts at index 2. *)
Lemma add_document_chunk_index_witness :
  len (chunk_text_default DemoMore.long_text) = 3
  ∧ ∃ w' new_points,
      add_document (svc := Demo.quiet) DemoMore.long_text
        (Some (web_metadata Demo.guide_url (VStr (lit "Guide")))) 2
        Demo.stocked_world = (inr 3, w')
      ∧ points w' = points Demo.stocked_world ++ new_points
      ∧ (λ p, point_payload p !! lit "chunk_index") <$> new_points
        = [Some (VInt 0); Some (VInt 1); Some (VInt 2)].
Proof.
  split; [vm_compute; reflexivity|].
  set (meta := Some (web_metadata Demo.guide_url (VStr (lit "Guide")))).
  set (run := add_document (svc := Demo.quiet) DemoMore.long_text meta 2
                Demo.stocked_world).
  assert (Hrun : run = (inr 3, snd run)) by (vm_compute; reflexivity).
  assert (Hchunks : ∃ c0 c1 c2,
            chunk_text_default DemoMore.long_text = [c0; c1; c2]).
  { eexists _, _, _. vm_compute. reflexivity. }
  destruct Hchunks as (c0 & c1 & c2 & Hchunks).
  destruct (add_document_chunk_index (svc := Demo.quiet)
              DemoMore.long_text meta 2 Demo.stocked_world 3 (snd run)
              quiet_encode_length ltac:(lia) eq_refl Hrun)
    as (_ & new_points & Hpoints & Hlength & Hall).
  rewrite Hchunks in Hlength, Hall.
  exists (snd run), new_points.
  split; [exact Hrun|]. split; [exact Hpoints|].
  clear Hrun Hpoints Hchunks. clearbody run.
  destruct (Hall 0%nat c0 eq_refl) as (p0 & Hp0 & _ & Hi0).
  destruct (Hall 1%nat c1 eq_refl) as (p1 & Hp1 & _ & Hi1).
  destruct (Hall 2%nat c2 eq_refl) as (p2 & Hp2 & _ & Hi2).
  clear Hall.
  destruct new_points as [|q0 [|q1 [|q2 [|q3 rest]]]];
    try discriminate Hlength.
  injection Hp0 as ->. injection Hp1 as ->. injection Hp2 as ->.
  cbn [fmap list_fmap]. rewrite Hi0, Hi1, Hi2. reflexivity.
Defined.

(** C4 as stated fails. A metadata mapping with its own "chunk_index"
    replaces the index of the chunk in the stored payload; and with a
    negative batch size the batch loop is empty, so that add_document
    returns the number of chunks though no point was stored. *)
Lemma add_document_chunk_index_overridden :
  (let run := add_document (svc := Demo.quiet) (lit "hello world")
                (Some {[ lit "chunk_index" := VInt 7 ]}) 10
                Demo.ready_world in
   fst run = inr 1
   ∧ (λ p, point_payload p !! lit "chunk_index") <$> points (snd run)
     = [Some (VInt 7)])
  ∧ (let run := add_document (svc := Demo.quiet) (lit "hello world") None
                  (-1) Demo.ready_world in
     fst run = inr 1 ∧ points (snd run) = []).
Proof. split; split; vm_compute; reflexivity. Qed.

Lemma search_documents_never_raises_witness :
  fst (search_documents (svc := Demo.quiet) (lit "What is FastAPI?") 5
         Demo.fresh_world) = inr [].
Proof.
  destruct (search_documents_never_raises (svc := Demo.quiet)
              (lit "What is FastAPI?") 5 Demo.fresh_world)
    as (results & w' & Hrun & _ & Hmissing & _).
  rewrite Hrun. simpl. f_equal. apply Hmissing. apply not_elem_of_nil.
Defined.

Lemma generate_answer_no_context_witness :
  fst (search_documents (svc := Demo.quiet) (lit "What is FastAPI?") 3
         Demo.fresh_world) = inr []
  ∧ ∃ a,
      generate_answer (svc := Demo.quiet) (lit "What is FastAPI?") 3
        Demo.fresh_world
      = (inr a, snd (search_documents (svc := Demo.quiet)
                       (lit "What is FastAPI?") 3 Demo.fresh_world))
      ∧ answer a = insufficient_information
      ∧ sources a = []
      ∧ context_used a = false.
Proof.
  split; [reflexivity|].
  apply (generate_answer_no_context (svc := Demo.quiet)). reflexivity.
Defined.

Lemma generate_answer_never_raises_witness :
  ∃ a w',
    generate_answer (svc := Demo.llm_down) (lit "What is FastAPI?") 3
      Demo.stocked_world = (inr a, w')
    ∧ answer a = lit "Error generating answer: API connection error"
    ∧ sources a = []
    ∧ context_used a = false
    ∧ error a = Some (lit "API connection error").
Proof.
  destruct (generate_answer_never_raises (svc := Demo.llm_down)
              (lit "What is FastAPI?") 3 Demo.stocked_world)
    as (a & w' & Hrun & Herr).
  exists a, w'. split; [done|].
  apply (Herr (Exception (lit "API connection error"))).
  vm_compute. reflexivity.
Defined.

(** Three URLs: a page of 150 characters, a page of 9 characters and a
    page that cannot be fetched. The first one is stored as one chunk,
    the two others are skipped and write nothing. *)
Lemma update_from_urls_summary_witness :
  init_collection (svc := Demo.quiet) Demo.fresh_world
  = (inr (), Demo.ready_world)
  ∧ sleep_fault (Services := Demo.quiet) 1.0%float = None
  ∧ ∃ summary w',
      update_from_urls (svc := Demo.quiet)
        [Demo.guide_url; Demo.stub_url; Demo.down_url] 1.0%float
        Demo.fresh_world = (inr summary, w')
      ∧ total_urls summary = 3
      ∧ details summary
        = [ DSuccess Demo.guide_url 1;
            DSkipped Demo.stub_url (lit "insufficient_content");
            DSkipped Demo.down_url (lit "insufficient_content") ]
      ∧ in_turn (url_routed (svc := Demo.quiet))
          [Demo.guide_url; Demo.stub_url; Demo.down_url]
          Demo.ready_world (details summary) w'
      ∧ (λ p, point_payload p !! lit "source") <$> points w'
        = [Some (VStr Demo.guide_url)]
      ∧ successful summary + failed summary = 3.
Proof.
  split; [reflexivity|]. split; [reflexivity|].
  set (urls := [Demo.guide_url; Demo.stub_url; Demo.down_url]).
  set (run := update_from_urls (svc := Demo.quiet) urls 1.0%float
                Demo.fresh_world).
  assert (Hdetails : match fst run with
                     | inr summary => details summary
                     | inl _ => []
                     end
                     = [ DSuccess Demo.guide_url 1;
                         DSkipped Demo.stub_url (lit "insufficient_content");
                         DSkipped Demo.down_url
                           (lit "insufficient_content") ])
    by (vm_compute; reflexivity).
  assert (Hstored : (λ p, point_payload p !! lit "source")
                      <$> points (snd run)
                    = [Some (VStr Demo.guide_url)])
    by (vm_compute; reflexivity).
  destruct (update_from_urls_summary (svc := Demo.quiet) urls 1.0%float
              Demo.fresh_world Demo.ready_world eq_refl eq_refl)
    as (summary & w' & Hrun & Htotal & _ & Hturn & _ & _ & _ & Hsum).
  fold run in Hrun. rewrite Hrun in Hdetails, Hstored.
  cbn [fst snd] in Hdetails, Hstored.
  exists summary, w'.
  split; [exact Hrun|]. split; [exact Htotal|]. split; [exact Hdetails|].
  split; [exact Hturn|]. split; [exact Hstored|exact Hsum].
Defined.

(** C8 as stated fails. The summary has no count of skipped URLs: a
    skipped URL adds to "failed". And a URL is recorded as skipped also
    when it could not be fetched at all. *)
Lemma update_from_urls_skips_failed_fetch :
  pd_error (fetch_page_text (svc := Demo.quiet) Demo.down_url)
  = Some (lit "connection timed out")
  ∧ fst (update_from_urls (svc := Demo.quiet) [Demo.down_url] 1.0%float
           Demo.fresh_world)
    = inr {| total_urls := 1; successful := 0; failed := 1;
             total_chunks := 0;
             details :=
               [DSkipped Demo.down_url (lit "insufficient_content")] |}.
Proof. split; vm_compute; reflexivity. Qed.

Lemma load_pdf_insufficient_text_witness :
  len Demo.short_page = 50
  ∧ load_pdf (svc := Demo.quiet) Demo.short_pdf Demo.ready_world
    = (inr (LoadFailed insufficient_text), Demo.ready_world).
Proof.
  split; [reflexivity|].
  destruct (load_pdf_insufficient_text (svc := Demo.quiet) Demo.short_pdf
              [Demo.short_page] Demo.ready_world eq_refl eq_refl eq_refl)
    as (_ & _ & _ & Hsame).
  apply Hsame; [|reflexivity]. vm_compute. constructor.
Defined.

(** C9 as stated fails. load_pdf calls init_collection before it looks
    at the file. When the store cannot be reached, a PDF with 50
    characters of text is answered with the error of the store, not with
    "Insufficient text extracted from PDF"; and on a store that has no
    collection yet the call creates the collection, so the store is not
    left unchanged. *)
Lemma load_pdf_reports_store_error :
  (os_path_exists (Services := Demo.store_down) Demo.short_pdf = true
   ∧ pdf_pages (Services := Demo.store_down) Demo.short_pdf
     = inr [inr Demo.short_page]
   ∧ len Demo.short_page = 50)
  ∧ (load_pdf (svc := Demo.store_down) Demo.short_pdf Demo.fresh_world
     = (inr (LoadFailed (lit "connection refused")), Demo.fresh_world)
     ∧ lit "connection refused" ≠ insufficient_text)
  ∧ (load_pdf (svc := Demo.quiet) Demo.short_pdf Demo.fresh_world
     = (inr (LoadFailed insufficient_text), Demo.ready_world)
     ∧ collections Demo.ready_world ≠ collections Demo.fresh_world).
Proof.
  split; [repeat split; reflexivity|].
  split; (split; [vm_compute; reflexivity | vm_compute; discriminate]).
Qed.

End PipelineRuns.

(* ===================================================================== *)
(** * Part III.  Further properties of the code                           *)
(* ===================================================================== *)

(** ** More on [chunk_text] *)

Section ChunkTextMore.
Import Py Chunker Substring.

Lemma substring_of_trans a b c :
  substring_of a b → substring_of b c → substring_of a c.
Proof.
  intros (b1 & b2 & ->) (c1 & c2 & ->).
  exists (c1 ++ b1), (b2 ++ c2). by rewrite <- !app_assoc.
Qed.

Lemma strip_substring s : substring_of (strip s) s.
Proof.
  destruct (strip_split s) as (lead & trail & Hs & _).
  by exists lead, trail.
Qed.

Lemma slice_substring (text : str) lo hi : substring_of (slice text lo hi) text.
Proof.
  unfold slice.
  set (m := Z.to_nat (clamp_index (len text) lo)).
  set (n := Z.to_nat _).
  exists (take m text), (drop n (drop m text)).
  by rewrite take_drop, take_drop.
Qed.

(** Every chunk the loop appends is the stripped form of a slice of the
    text. *)
Lemma chunk_loop_slices (Q : str → Prop)
    fuel text chunk_size overlap start chunks r :
  (∀ lo hi, Q (strip (slice text lo hi))) →
  Forall Q chunks →
  chunk_loop fuel text chunk_size overlap start chunks = Some r →
  Forall Q r.
Proof.
  intros HQ. revert start chunks.
  induction fuel as [|fuel IH]; intros start chunks Hchunks; [done|].
  simpl. destruct (start <? len text); [|congruence].
  set (chunk := strip (slice text start _)).
  assert (Hnext : Forall Q (if truthy chunk then chunks ++ [chunk] else chunks)).
  { destruct (truthy chunk); [|done].
    apply Forall_app; split; [done|]. apply Forall_singleton, HQ. }
  destruct (chunk_size <=? overlap); [congruence|]. by apply IH.
Qed.

(** X1: whatever the parameters, every chunk returned by chunk_text is a
    contiguous part of the text: chunking never reorders, joins or
    invents characters. *)
Theorem chunk_text_substrings text chunk_size overlap :
  Forall (λ chunk, substring_of chunk text)
         (chunk_text text chunk_size overlap).
Proof.
  pose proof (chunk_text_fuel_enough text chunk_size overlap 0) as Hrun.
  unfold chunk_text_fuel in Hrun.
  destruct (negb (truthy text) || (len text =? 0)).
  - injection Hrun as <-. constructor.
  - eapply chunk_loop_slices; [|constructor|exact Hrun].
    intros lo hi. eapply substring_of_trans;
      [apply strip_substring | apply slice_substring].
Qed.

(** X2: for 0 <= overlap < chunk_size the number of chunks is at most
    the number of windows, len(text) divided by the step
    chunk_size - overlap, rounded up. *)
Theorem chunk_text_count text chunk_size overlap :
  0 ≤ overlap < chunk_size →
  len (chunk_text text chunk_size overlap)
  ≤ (len text + (chunk_size - overlap) - 1) `div` (chunk_size - overlap).
Proof.
  intros Hparams. rewrite chunk_text_is_windows by done.
  unfold len. etrans; [apply inj_le, length_filter|].
  unfold windows. rewrite !length_fmap, length_seq. unfold window_count.
  rewrite Nat2Z.inj_div.
  replace (Z.of_nat (length text
             + (Z.to_nat chunk_size - Z.to_nat overlap) - 1))
    with (Z.of_nat (length text) + (chunk_size - overlap) - 1) by lia.
  replace (Z.of_nat (Z.to_nat chunk_size - Z.to_nat overlap))
    with (chunk_size - overlap) by lia.
  done.
Qed.

(** X3: for 0 <= overlap < chunk_size, a non-empty text of at most
    chunk_size - overlap characters is not cut: the result is its
    stripped form alone, or nothing when the text is white space. *)
Theorem chunk_text_short_text text chunk_size overlap :
  0 ≤ overlap < chunk_size →
  0 < len text ≤ chunk_size - overlap →
  chunk_text text chunk_size overlap
  = if truthy (strip text) then [strip text] else [].
Proof.
  intros Hparams Hshort. unfold len in Hshort.
  rewrite chunk_text_is_windows by done. unfold windows.
  set (step := (Z.to_nat chunk_size - Z.to_nat overlap)%nat).
  assert (0 < step)%nat as Hstep by (unfold step; lia).
  assert (window_count text step = 1%nat) as ->.
  { pose proof (window_count_spec text step 0 Hstep) as H0.
    pose proof (window_count_spec text step 1 Hstep) as H1.
    unfold step in *. lia. }
  cbn [seq fmap list_fmap]. unfold window.
  change (drop (0 * step) text) with text.
  rewrite take_ge by lia. rewrite filter_cons, filter_nil.
  destruct (strip text) eqn:Hs; cbn [truthy].
  - by rewrite decide_False by auto.
  - by rewrite decide_True.
Qed.

End ChunkTextMore.

Section ChunkTextMoreRuns.
Import Py Chunker.

Lemma chunk_text_count_witness :
  0 ≤ 2 < 4
  ∧ len (chunk_text (lit "a  bcdef") 4 2) ≤ (8 + (4 - 2) - 1) `div` (4 - 2).
Proof.
  split; [lia|]. apply (chunk_text_count (lit "a  bcdef") 4 2). lia.
Defined.

Lemma chunk_text_short_text_witness :
  0 ≤ 100 < 800
  ∧ chunk_text (lit "  FastAPI is a web framework. ") 800 100
    = [lit "FastAPI is a web framework."].
Proof.
  split; [lia|].
  rewrite (chunk_text_short_text (lit "  FastAPI is a web framework. ")
             800 100); [reflexivity | lia | ].
  split; vm_compute; congruence.
Defined.

End ChunkTextMoreRuns.

(** ** The sentence-aware chunker *)

Section SentenceFacts.
Import Py Chunker Sentences.

Lemma remove_whitespace_strip s :
  remove_whitespace (strip s) = remove_whitespace s.
Proof. by rewrite <- (drop_0 s) at 2; rewrite remove_whitespace_drop. Qed.

Lemma remove_whitespace_cons_space c s :
  isspace c = true → remove_whitespace (c :: s) = remove_whitespace s.
Proof.
  intros Hc. change (c :: s) with ([c] ++ s).
  rewrite remove_whitespace_app, (remove_whitespace_all [c]); [done|].
  by constructor.
Qed.

(** Splitting into sentences drops white space only. *)
Lemma split_sentences_aux_content s : ∀ after_end in_gap piece,
  remove_whitespace (concat (split_sentences_aux after_end in_gap piece s))
  = remove_whitespace (piece ++ s).
Proof.
  induction s as [|c s IH]; intros after_end in_gap piece.
  - simpl. by rewrite !app_nil_r.
  - cbn [split_sentences_aux].
    destruct (isspace c) eqn:Hc; cbn [andb].
    + assert (remove_whitespace (piece ++ c :: s)
              = remove_whitespace (piece ++ s)) as Hskip.
      { by rewrite !remove_whitespace_app, remove_whitespace_cons_space. }
      destruct in_gap; [by rewrite IH|].
      destruct after_end; [|by rewrite IH, <- app_assoc].
      cbn [concat]. by rewrite Hskip, !remove_whitespace_app, IH.
    + rewrite IH, <- app_assoc. done.
Qed.

(** Packing the sentences drops white space only. *)
Lemma pack_sentences_content max_chunk_size sentences :
  ∀ current_chunk chunks,
    remove_whitespace
      (concat (pack_sentences max_chunk_size sentences current_chunk chunks))
    = remove_whitespace (concat chunks ++ current_chunk ++ concat sentences).
Proof.
  assert (Hflush : ∀ current chunks,
    remove_whitespace
      (concat (if truthy current then chunks ++ [strip current] else chunks))
    = remove_whitespace (concat chunks ++ current)).
  { intros current chunks. destruct current as [|c current]; cbn [truthy].
    - by rewrite app_nil_r.
    - rewrite concat_app. cbn [concat]. rewrite app_nil_r.
      by rewrite !remove_whitespace_app, remove_whitespace_strip. }
  induction sentences as [|sentence rest IH]; intros current_chunk chunks.
  - cbn [pack_sentences concat]. by rewrite Hflush, app_nil_r.
  - cbn [pack_sentences concat].
    destruct (len current_chunk + len sentence <=? max_chunk_size).
    + rewrite IH. rewrite !remove_whitespace_app.
      rewrite (remove_whitespace_all (lit " ")) by (by repeat constructor).
      by rewrite <- !app_assoc.
    + rewrite IH. rewrite (remove_whitespace_app _ (sentence ++ _)), Hflush.
      by rewrite !remove_whitespace_app, <- !app_assoc.
Qed.

(** X4: chunk_by_sentences loses nothing but white space: the chunks,
    put end to end, hold the characters of the text that are not white
    space, all of them and in order, for every text and every
    max_chunk_size. *)
Theorem chunk_by_sentences_content text max_chunk_size :
  remove_whitespace (concat (chunk_by_sentences text max_chunk_size))
  = remove_whitespace text.
Proof.
  unfold chunk_by_sentences. rewrite pack_sentences_content.
  cbn [concat app]. rewrite remove_whitespace_concat.
  rewrite <- remove_whitespace_concat.
  unfold split_sentences. by rewrite split_sentences_aux_content.
Qed.

Lemma pack_sentences_bound max_chunk_size sentences :
  0 ≤ max_chunk_size →
  Forall (λ s, len s ≤ max_chunk_size) sentences →
  ∀ current_chunk chunks,
    len current_chunk ≤ max_chunk_size + 1 →
    Forall (λ c, len c ≤ max_chunk_size + 1 ∧ strip c = c) chunks →
    Forall (λ c, len c ≤ max_chunk_size + 1 ∧ strip c = c)
      (pack_sentences max_chunk_size sentences current_chunk chunks).
Proof.
  intros Hmax.
  assert (Hflush : ∀ current chunks,
    len current ≤ max_chunk_size + 1 →
    Forall (λ c, len c ≤ max_chunk_size + 1 ∧ strip c = c) chunks →
    Forall (λ c, len c ≤ max_chunk_size + 1 ∧ strip c = c)
      (if truthy current then chunks ++ [strip current] else chunks)).
  { intros current chunks Hcurrent Hchunks.
    destruct (truthy current); [|done].
    apply Forall_app. split; [done|]. apply Forall_singleton. split.
    - pose proof (strip_length current). unfold len in *. lia.
    - apply strip_idempotent. }
  induction 1 as [|sentence rest Hsentence _ IH];
    intros current_chunk chunks Hcurrent Hchunks.
  - by apply Hflush.
  - cbn [pack_sentences].
    destruct (Z.leb_spec (len current_chunk + len sentence) max_chunk_size).
    + apply IH; [|done]. unfold len in *. rewrite !length_app.
      change (length (lit " ")) with 1%nat. lia.
    + apply IH; [lia|]. by apply Hflush.
Qed.

(** X5: when no sentence is longer than max_chunk_size (>= 0), every
    chunk returned by chunk_by_sentences is stripped and at most
    max_chunk_size + 1 characters long: the size test does not count the
    joining space, so the limit can be passed by one. *)
Theorem chunk_by_sentences_length text max_chunk_size :
  0 ≤ max_chunk_size →
  Forall (λ sentence, len sentence ≤ max_chunk_size)
         (split_sentences text) →
  Forall (λ chunk, len chunk ≤ max_chunk_size + 1 ∧ strip chunk = chunk)
         (chunk_by_sentences text max_chunk_size).
Proof.
  intros Hmax Hsentences. unfold chunk_by_sentences.
  apply pack_sentences_bound; [done | done | | constructor].
  unfold len. simpl. lia.
Qed.

End SentenceFacts.

Section SentenceRuns.
Import Py Chunker Sentences.

Lemma chunk_by_sentences_length_witness :
  split_sentences (lit "ab. cd. e.") = [lit "ab."; lit "cd."; lit "e."]
  ∧ chunk_by_sentences (lit "ab. cd. e.") 5 = [lit "ab."; lit "cd. e."]
  ∧ Forall (λ chunk, len chunk ≤ 5 + 1 ∧ strip chunk = chunk)
           (chunk_by_sentences (lit "ab. cd. e.") 5).
Proof.
  split; [reflexivity|]. split; [reflexivity|].
  apply (chunk_by_sentences_length (lit "ab. cd. e.") 5); [lia|].
  repeat constructor; vm_compute; congruence.
Defined.

End SentenceRuns.

(** ** The white-space clean-up of a page *)

Section CleanupFacts.
Import Py Chunker Cleanup.

Lemma split_whitespace_aux_words s : ∀ word,
  Forall (λ c, isspace c = false) word →
  Forall is_word (split_whitespace_aux word s).
Proof.
  induction s as [|c s IH]; intros word Hword; cbn [split_whitespace_aux].
  - destruct word; cbn [truthy]; [constructor|].
    apply Forall_singleton. by split.
  - destruct (isspace c) eqn:Hc.
    + destruct word; cbn [truthy]; [by apply IH|].
      constructor; [by split|]. by apply IH.
    + apply IH. apply Forall_app. split; [done|]. by constructor.
Qed.

Lemma split_whitespace_aux_content s : ∀ word,
  concat (split_whitespace_aux word s) = word ++ remove_whitespace s.
Proof.
  induction s as [|c s IH]; intros word; cbn [split_whitespace_aux].
  - destruct word; cbn [truthy]; [done|]. simpl. by rewrite !app_nil_r.
  - destruct (isspace c) eqn:Hc.
    + rewrite remove_whitespace_cons_space by done.
      destruct word; cbn [truthy concat]; by rewrite IH.
    + rewrite IH, <- app_assoc. f_equal.
      unfold remove_whitespace. by rewrite filter_cons_True.
Qed.

(** Reading a word, then the rest. *)
Lemma split_whitespace_aux_app w : ∀ word s,
  Forall (λ c, isspace c = false) w →
  split_whitespace_aux word (w ++ s) = split_whitespace_aux (word ++ w) s.
Proof.
  induction w as [|c w IH]; intros word s Hw.
  - by rewrite app_nil_r.
  - inversion Hw as [|? ? Hc Hw']; subst.
    cbn [app split_whitespace_aux]. rewrite Hc, IH by done.
    by rewrite <- app_assoc.
Qed.

(** Splitting what was joined gives back the words. *)
Lemma split_whitespace_join words :
  Forall is_word words →
  split_whitespace (join (lit " ") words) = words.
Proof.
  unfold split_whitespace.
  induction 1 as [|w rest [Hne Hw] Hrest IH]; [done|].
  destruct rest as [|w' rest].
  - cbn [join]. rewrite <- (app_nil_r w) at 1.
    rewrite split_whitespace_aux_app by done.
    cbn [app split_whitespace_aux]. by destruct w.
  - change (join (lit " ") (w :: w' :: rest))
      with (w ++ 32%N :: join (lit " ") (w' :: rest)).
    rewrite split_whitespace_aux_app by done.
    cbn [app split_whitespace_aux isspace]. rewrite IH.
    by destruct w.
Qed.

Lemma remove_whitespace_join words :
  remove_whitespace (join (lit " ") words)
  = remove_whitespace (concat words).
Proof.
  induction words as [|w rest IH]; [done|].
  destruct rest as [|w' rest]; [cbn; by rewrite app_nil_r|].
  change (join (lit " ") (w :: w' :: rest))
    with (w ++ 32%N :: join (lit " ") (w' :: rest)).
  change (concat (w :: w' :: rest)) with (w ++ concat (w' :: rest)).
  rewrite !remove_whitespace_app.
  by rewrite remove_whitespace_cons_space, IH.
Qed.

(** X6: the clean-up keeps the words of the text, in order, and is
    idempotent: cleaning a cleaned text changes nothing. *)
Theorem clean_whitespace_idempotent s :
  split_whitespace (clean_whitespace s) = split_whitespace s
  ∧ clean_whitespace (clean_whitespace s) = clean_whitespace s.
Proof.
  assert (split_whitespace (clean_whitespace s) = split_whitespace s) as Hsame.
  { apply split_whitespace_join.
    apply split_whitespace_aux_words. constructor. }
  split; [done|]. unfold clean_whitespace at 1. by rewrite Hsame.
Qed.

(** X7: the cleaned text consists of words, non-empty and free of white
    space, with one space between two of them, and it has the characters
    of the text that are not white space, in the same order. *)
Theorem clean_whitespace_normal_form s :
  ∃ words,
    clean_whitespace s = join (lit " ") words
    ∧ Forall is_word words
    ∧ concat words = remove_whitespace s
    ∧ remove_whitespace (clean_whitespace s) = remove_whitespace s.
Proof.
  exists (split_whitespace s). split; [done|].
  assert (Hcontent : concat (split_whitespace s) = remove_whitespace s)
    by apply (split_whitespace_aux_content s []).
  split; [apply split_whitespace_aux_words; constructor|].
  split; [done|].
  unfold clean_whitespace. rewrite remove_whitespace_join, Hcontent.
  unfold remove_whitespace. apply list_filter_filter_l. tauto.
Qed.

End CleanupFacts.

(** ** More on the embedder and the store *)

Section StoreFacts.
Import Py World World.Notations Chunker Embedder Retriever.
Context `{svc : Services}.

(** X8: for calls of get_embedder made one after the other, each
    starting when the one before it has returned. After a call that
    succeeds the instance is set and every later call returns at once
    without loading a model, whatever the loader would do; a call that
    fails leaves the world as it was, with no instance, so that the next
    call tries again. The source tests and sets the instance without a
    lock: calls that overlap in time are not covered by this
    statement. *)
Theorem get_embedder_once w r w1 :
  get_embedder w = (r, w1) →
  match r with
  | inr _ =>
      embedder_instance w1 = true
      ∧ ∀ other : Services, get_embedder (svc := other) w1 = (inr (), w1)
  | inl _ => w1 = w ∧ embedder_instance w = false
  end.
Proof.
  unfold get_embedder.
  destruct (embedder_instance w) eqn:Hloaded.
  - intros [= <- <-]. split; [done|]. intros other. by rewrite Hloaded.
  - destruct (model_load w); intros [= <- <-]; by split.
Qed.

(** X9: init_collection is idempotent. When it returns, the configured
    collection exists; if it existed before, nothing has changed; and a
    second call (the store answering the listing) changes nothing. *)
Theorem init_collection_idempotent w w1 :
  init_collection w = (inr (), w1) →
  Config.COLLECTION_NAME ∈ collections w1
  ∧ (Config.COLLECTION_NAME ∈ collections w → w1 = w)
  ∧ (qdrant_get_collections_fault w1 = None →
     init_collection w1 = (inr (), w1)).
Proof.
  intros Hinit.
  assert (Hexists : Config.COLLECTION_NAME ∈ collections w1
                    ∧ (Config.COLLECTION_NAME ∈ collections w → w1 = w)).
  { unfold init_collection in Hinit. rewrite try_except_reraise in Hinit.
    unfold qdrant_get_collections, qdrant_create_collection, bind, fault
      in Hinit.
    destruct (qdrant_get_collections_fault w); [done|].
    destruct (bool_decide (Config.COLLECTION_NAME ∈ collections w))
      eqn:Hin.
    - injection Hinit as <-. by apply bool_decide_eq_true_1 in Hin.
    - apply bool_decide_eq_false_1 in Hin.
      destruct (qdrant_create_collection_fault w); [done|].
      injection Hinit as <-. split; [|done]. simpl. apply list_elem_of_here. }
  destruct Hexists as [Hnow Hsame]. split; [done|]. split; [done|].
  intros Hfault. by apply init_collection_present.
Qed.

(** One batch: the collections stay, the points can only grow, and each
    new point carries the payload of a chunk of the document. *)
Lemma upload_batch_store chunks metadata batch_size batch_start w r w' :
  upload_batch chunks metadata batch_size batch_start w = (r, w') →
  collections w' = collections w
  ∧ ∃ new_points,
      points w' = points w ++ new_points
      ∧ Forall (λ p, ∃ chunk index,
                  chunk ∈ chunks
                  ∧ point_payload p = make_payload chunk index metadata)
               new_points.
Proof.
  unfold upload_batch. cbn zeta.
  set (batch_chunks := slice chunks batch_start _).
  assert (Hsub : ∀ c, c ∈ batch_chunks → c ∈ chunks).
  { intros c Hc. unfold batch_chunks, slice in Hc.
    by apply subseteq_take, subseteq_drop in Hc. }
  unfold bind at 1. unfold embed_text, lift.
  destruct (model_encode batch_chunks) as [e|vectors].
  { intros [= <- <-]. split; [done|]. exists []. by rewrite app_nil_r. }
  cbn [ret]. unfold bind at 1.
  destruct (make_points_spec metadata batch_start (zip batch_chunks vectors)
              0 w) as (pts & w2 & -> & Hcoll & Hpts & Hpay).
  assert (Hbuilt : Forall (λ p, ∃ chunk index,
                     chunk ∈ chunks
                     ∧ point_payload p = make_payload chunk index metadata)
                   pts).
  { apply Forall_forall. intros p Hp.
    apply (list_elem_of_fmap_2 point_payload) in Hp. rewrite Hpay in Hp.
    unfold chunk_payloads in Hp.
    apply list_elem_of_fmap in Hp as ([i c] & -> & Hic).
    exists c, i. split; [|done]. apply Hsub.
    assert (c ∈ (enumerate (batch_start + 0)
                   (zip batch_chunks vectors).*1).*2) as Hc
      by (by apply (list_elem_of_fmap_2 snd) in Hic).
    clear -Hc. revert Hc. generalize (batch_start + 0).
    generalize vectors. induction batch_chunks as [|b batch_chunks IH];
      intros [|v vs] start; cbn; try (by intros ?%elem_of_nil).
    intros [->|Hc]%elem_of_cons; [left | right; by eapply IH]. }
  unfold qdrant_upsert.
  destruct (bool_decide (Config.COLLECTION_NAME ∈ collections w2)).
  - destruct (qdrant_upsert_fault w2 pts).
    + intros [= <- <-]. split; [done|]. exists [].
      by rewrite app_nil_r, Hpts.
    + intros [= <- <-]. split; [done|]. exists pts. simpl.
      by rewrite Hpts.
  - intros [= <- <-]. split; [done|]. exists []. by rewrite app_nil_r, Hpts.
Qed.

Lemma upload_batches_store chunks metadata batch_size batch_starts :
  ∀ w r w',
    for_each batch_starts (upload_batch chunks metadata batch_size) w
    = (r, w') →
    collections w' = collections w
    ∧ ∃ new_points,
        points w' = points w ++ new_points
        ∧ Forall (λ p, ∃ chunk index,
                    chunk ∈ chunks
                    ∧ point_payload p = make_payload chunk index metadata)
                 new_points.
Proof.
  induction batch_starts as [|batch_start rest IH]; intros w r w'.
  - intros [= <- <-]. split; [done|]. exists []. by rewrite app_nil_r.
  - cbn [for_each]. unfold bind at 1.
    destruct (upload_batch chunks metadata batch_size batch_start w)
      as [[e|[]] w1] eqn:Hbatch;
      apply upload_batch_store in Hbatch as (Hcoll1 & new1 & Hpts1 & Hnew1).
    + intros [= <- <-]. split; [done|]. by exists new1.
    + intros (Hcoll2 & new2 & Hpts2 & Hnew2)%IH. split; [congruence|].
      exists (new1 ++ new2). split.
      * by rewrite Hpts2, Hpts1, app_assoc.
      * by apply Forall_app.
Qed.

(** Whatever its outcome, [add_document] leaves the collections alone
    and only appends points built from chunks of the text. *)
Lemma add_document_store text metadata batch_size w r w' :
  add_document text metadata batch_size w = (r, w') →
  collections w' = collections w
  ∧ ∃ new_points,
      points w' = points w ++ new_points
      ∧ Forall (λ p, ∃ chunk index,
                  chunk ∈ chunk_text_default text
                  ∧ point_payload p = make_payload chunk index metadata)
               new_points.
Proof.
  unfold add_document. rewrite try_except_reraise.
  set (chunks := chunk_text_default text).
  assert (Hnone : ∀ w0 : world,
            collections w0 = collections w → points w0 = points w →
            collections w0 = collections w
            ∧ ∃ new_points,
                points w0 = points w ++ new_points
                ∧ Forall (λ p, ∃ chunk index,
                            chunk ∈ chunks
                            ∧ point_payload p
                              = make_payload chunk index metadata)
                         new_points).
  { intros w0 Hc Hp. split; [done|]. exists []. by rewrite app_nil_r. }
  destruct (truthy chunks); cbn [negb].
  2:{ intros [= <- <-]. by apply Hnone. }
  unfold bind at 1.
  destruct (get_embedder w) as [[e|[]] w1] eqn:Hload;
    apply get_embedder_store in Hload as [Hcoll1 Hpts1].
  { intros [= <- <-]. by apply Hnone. }
  unfold bind at 1.
  destruct (batch_size =? 0).
  { intros [= <- <-]. by apply Hnone. }
  cbn [ret]. unfold bind at 1.
  destruct (for_each _ _ w1) as [[e|[]] w2] eqn:Hloop;
    apply upload_batches_store in Hloop as (Hcoll2 & new & Hpts2 & Hnew);
    intros [= <- <-]; (split; [congruence|]); exists new;
    by rewrite Hpts2, Hpts1.
Qed.

(** X10: add_document never removes or rewrites what the store holds.
    Whether it returns or raises, the collections are the same and the
    points it found are still there, in order, before the ones it
    added. *)
Theorem add_document_keeps_points text metadata batch_size w r w' :
  add_document text metadata batch_size w = (r, w') →
  collections w' = collections w
  ∧ ∃ new_points, points w' = points w ++ new_points.
Proof.
  intros (Hcoll & new & Hpts & _)%add_document_store.
  split; [done|]. by exists new.
Qed.

(** X12: every point add_document stores, on every path, carries the
    caller's metadata: each key of the metadata is in the payload with
    the caller's value; and unless the metadata has a key "text" of its
    own, the payload's "text" is a chunk of the document. *)
Theorem add_document_metadata_in_payloads text metadata batch_size w r w' :
  add_document text metadata batch_size w = (r, w') →
  ∃ new_points,
    points w' = points w ++ new_points
    ∧ Forall (λ p,
        (∀ key v, default ∅ metadata !! key = Some v →
                  point_payload p !! key = Some v)
        ∧ (default ∅ metadata !! lit "text" = None →
           ∃ chunk, chunk ∈ chunk_text_default text
                    ∧ point_payload p !! lit "text" = Some (VStr chunk)))
      new_points.
Proof.
  intros (_ & new & Hpts & Hnew)%add_document_store.
  exists new. split; [done|].
  eapply Forall_impl; [exact Hnew|].
  intros p (chunk & index & Hchunk & ->). unfold make_payload. split.
  - intros key v Hkey. by apply lookup_union_Some_l.
  - intros Hfree. exists chunk. split; [done|].
    rewrite lookup_union_r by done. apply lookup_insert_eq.
Qed.

End StoreFacts.

(** ** Batches: failure part-way, and the counts of the collection *)

Section BatchFacts.
Import Py World World.Notations Chunker Embedder Retriever StoreInfo.
Context `{svc : Services}.

Section Prefix.
Variables (chunks : list str) (metadata : option (gmap str value))
          (batch_size : Z).
Hypothesis encode_length : ∀ texts vectors,
  model_encode texts = inr vectors → length vectors = length texts.
Hypothesis batch_size_pos : 1 ≤ batch_size.

(** A batch that fails stores nothing. *)
Lemma upload_batch_failure batch_start w e w' :
  upload_batch chunks metadata batch_size batch_start w = (inl e, w') →
  points w' = points w.
Proof using Type.
  unfold upload_batch. cbn zeta.
  set (batch_chunks := slice chunks batch_start _).
  unfold bind at 1. unfold embed_text, lift.
  destruct (model_encode batch_chunks) as [e'|vectors];
    [by intros [= _ <-]|].
  cbn [ret]. unfold bind at 1.
  destruct (make_points_spec metadata batch_start (zip batch_chunks vectors)
              0 w) as (pts & w2 & -> & _ & Hpts & _).
  unfold qdrant_upsert.
  destruct (bool_decide _); [|by intros [= _ <-]].
  destruct (qdrant_upsert_fault w2 pts); [by intros [= _ <-]|done].
Qed.

(** However the loop over the batches ends, what it has stored is the
    payloads of a number of whole batches, in order. *)
Lemma upload_batches_prefix fuel : ∀ batch_start w r w',
  0 ≤ batch_start →
  for_each (range_from fuel batch_start (len chunks) batch_size)
           (upload_batch chunks metadata batch_size) w = (r, w') →
  ∃ new_points k,
    points w' = points w ++ new_points
    ∧ point_payload <$> new_points
      = chunk_payloads metadata batch_start
          (take (k * Z.to_nat batch_size)
                (drop (Z.to_nat batch_start) chunks)).
Proof using encode_length batch_size_pos.
  assert (Hnone : ∀ batch_start (w : world),
            ∃ new_points k,
              points w = points w ++ new_points
              ∧ point_payload <$> new_points
                = chunk_payloads metadata batch_start
                    (take (k * Z.to_nat batch_size)
                          (drop (Z.to_nat batch_start) chunks))).
  { intros batch_start w. exists [], 0%nat. by rewrite app_nil_r. }
  induction fuel as [|fuel IH]; intros batch_start w r w' Hstart Hrun.
  { injection Hrun as <- <-. apply Hnone. }
  cbn [range_from] in Hrun.
  destruct (Z.ltb_spec 0 batch_size); [|lia].
  destruct (Z.ltb_spec batch_start (len chunks));
    [|injection Hrun as <- <-; apply Hnone].
  cbn [for_each] in Hrun. unfold bind at 1 in Hrun.
  destruct (upload_batch chunks metadata batch_size batch_start w)
    as [[e|[]] w1] eqn:Hbatch.
  - injection Hrun as <- <-. apply upload_batch_failure in Hbatch.
    rewrite Hbatch. apply Hnone.
  - apply (upload_batch_inv chunks metadata batch_size encode_length
             batch_size_pos) in Hbatch as (new1 & Hpts1 & Hpay1); [|lia].
    apply IH in Hrun as (new2 & k & Hpts2 & Hpay2); [|lia].
    exists (new1 ++ new2), (S k). split.
    + by rewrite Hpts2, Hpts1, app_assoc.
    + rewrite fmap_app, Hpay1, Hpay2.
      set (rest := drop (Z.to_nat batch_start) chunks).
      set (b := Z.to_nat batch_size).
      replace (S k * b)%nat with (b + k * b)%nat by lia.
      rewrite <- (take_take_drop rest b (k * b)), chunk_payloads_app.
      f_equal.
      replace (drop (Z.to_nat (batch_start + batch_size)) chunks)
        with (drop b rest)
        by (unfold rest, b; rewrite drop_drop; f_equal; lia).
      destruct (decide (b ≤ length rest)%nat) as [Hfull|Hshort].
      * do 2 f_equal. unfold len. rewrite length_take. lia.
      * rewrite (drop_ge rest) by lia. by rewrite take_nil.
Qed.

End Prefix.

(** X11: a failure part-way leaves whole batches behind. When
    add_document raises (batch size at least 1, one vector per chunk from
    the embedder), the points it has added are the payloads of the first
    k batches of the document's chunks, in order, for some k: no batch is
    stored in part and none is skipped. *)
Theorem add_document_failure_prefix text metadata batch_size w e w' :
  (∀ texts vectors,
     model_encode texts = inr vectors → length vectors = length texts) →
  1 ≤ batch_size →
  add_document text metadata batch_size w = (inl e, w') →
  ∃ new_points k,
    points w' = points w ++ new_points
    ∧ point_payload <$> new_points
      = chunk_payloads metadata 0
          (take (k * Z.to_nat batch_size) (chunk_text_default text)).
Proof.
  intros Hencode Hsize. unfold add_document. rewrite try_except_reraise.
  set (chunks := chunk_text_default text).
  destruct (truthy chunks); cbn [negb]; [|done].
  unfold bind at 1.
  destruct (get_embedder w) as [[e1|[]] w1] eqn:Hload;
    apply get_embedder_store in Hload as [_ Hpts1].
  { intros [= <- <-]. exists [], 0%nat. by rewrite app_nil_r. }
  unfold bind at 1. destruct (Z.eqb_spec batch_size 0); [lia|].
  cbn [ret]. unfold bind at 1.
  destruct (for_each _ _ w1) as [[e2|[]] w2] eqn:Hloop; [|done].
  intros [= <- <-]. unfold range in Hloop.
  apply (upload_batches_prefix chunks metadata batch_size Hencode Hsize)
    in Hloop as (new & k & Hpts & Hpay); [|lia].
  exists new, k. by rewrite Hpts, Hpts1.
Qed.

(** What a successful [add_document] has added. *)
Lemma add_document_success_points text metadata batch_size w n w' :
  (∀ texts vectors,
     model_encode texts = inr vectors → length vectors = length texts) →
  1 ≤ batch_size →
  add_document text metadata batch_size w = (inr n, w') →
  ∃ new_points, points w' = points w ++ new_points ∧ len new_points = n.
Proof.
  intros Hencode Hsize. unfold add_document. rewrite try_except_reraise.
  set (chunks := chunk_text_default text).
  destruct (truthy chunks) eqn:Hchunks; cbn [negb].
  2:{ intros [= <- <-]. exists []. by rewrite app_nil_r. }
  intros Hrun.
  apply bind_inr_inv in Hrun as ([] & w1 & Hload & Hrun).
  apply get_embedder_store in Hload as [_ Hpts1].
  destruct (Z.eqb_spec batch_size 0) as [|_]; [lia|].
  apply bind_inr_inv in Hrun as (starts & w2 & [= <- <-] & Hrun).
  apply bind_inr_inv in Hrun as ([] & w3 & Hloop & [= <- <-]).
  unfold range in Hloop.
  apply (upload_batches_inv chunks metadata batch_size Hencode Hsize)
    in Hloop as (new & Hpts & Hpay); [|unfold len; lia..].
  exists new. split; [by rewrite Hpts, Hpts1|].
  unfold len. f_equal.
  by rewrite <- (length_fmap point_payload), Hpay, chunk_payloads_length.
Qed.

Context `{status : StoreStatus}.

(** X13: the count of the collection follows the ingestion. When
    add_document returns n (batch size at least 1, one vector per chunk),
    and the store answers the two requests, get_collection_info reports
    a points_count that is larger by n after the call than before. *)
Theorem collection_info_after_add text metadata batch_size w n w' :
  (∀ texts vectors,
     model_encode texts = inr vectors → length vectors = length texts) →
  1 ≤ batch_size →
  Config.COLLECTION_NAME ∈ collections w →
  qdrant_get_collection_fault w = None →
  qdrant_get_collection_fault w' = None →
  add_document text metadata batch_size w = (inr n, w') →
  ∃ before,
    get_collection_info w
    = (inr (InfoHealthy Config.COLLECTION_NAME
              (qdrant_vectors_count w) before), w)
    ∧ get_collection_info w'
      = (inr (InfoHealthy Config.COLLECTION_NAME
                (qdrant_vectors_count w') (before + n)), w').
Proof.
  intros Hencode Hsize Hexists Hfault Hfault' Hrun.
  destruct (add_document_store _ _ _ _ _ _ Hrun) as [Hcoll _].
  destruct (add_document_success_points _ _ _ _ _ _ Hencode Hsize Hrun)
    as (new & Hpts & Hcount).
  exists (len (points w)).
  unfold get_collection_info, try_except, bind, qdrant_get_collection.
  rewrite Hcoll, bool_decide_eq_true_2, Hfault, Hfault' by done.
  split; [done|]. cbn. do 3 f_equal.
  rewrite Hpts. unfold len in *. rewrite length_app. lia.
Qed.

End BatchFacts.

(** ** More on the answer generator *)

Section GeneratorMore.
Import Py World World.Notations Retriever Generator.
Context `{svc : Services}.

Lemma slice_prefix_length (text : str) n :
  0 ≤ n → len (slice text 0 n) ≤ n.
Proof.
  intros Hn. unfold slice, clamp_index, len. rewrite length_take.
  destruct (Z.ltb_spec 0 0); [lia|]. destruct (Z.ltb_spec n 0); lia.
Qed.

(** The source entries built from the search results. *)
Lemma describe_results_inv results : ∀ i w described w',
  map_m describe_result (enumerate i results) w = (inr described, w') →
  w' = w
  ∧ Forall2 (λ r d, ∃ text,
               sr_text r = VStr text
               ∧ source d.2 = sr_source r
               ∧ score d.2 = sr_score r
               ∧ text_preview d.2
                 = if len text >? 200 then slice text 0 200 ++ lit "..."
                   else text)
            results described.
Proof.
  induction results as [|r results IH]; intros i w described w'.
  - intros [= <- <-]. by split.
  - cbn [enumerate map_m]. unfold bind at 1. cbn [describe_result].
    destruct (sr_text r) as [text| |] eqn:Htext; try done.
    cbn [ret]. unfold bind at 1.
    destruct (map_m describe_result (enumerate (i + 1) results) w)
      as [[e|rest] w1] eqn:Hrest; [done|].
    intros [= <- <-]. apply IH in Hrest as [-> Hrest]. split; [done|].
    constructor; [|done]. by exists text.
Qed.

(** X14: an answer with context_used true is a complete one. It was
    made from a non-empty search result; it lists one source per result,
    in order, with the result's source and score; each text_preview is
    the result's text, cut to its first 200 characters followed by "..."
    when the text is longer, so never more than 203 characters; the
    model is named and there is no error. *)
Theorem generate_answer_with_context query top_k w a w' :
  generate_answer query top_k w = (inr a, w') →
  context_used a = true →
  ∃ results,
    fst (search_documents query top_k w) = inr results
    ∧ results ≠ []
    ∧ Forall2 (λ r s, ∃ text,
                 sr_text r = VStr text
                 ∧ source s = sr_source r
                 ∧ score s = sr_score r
                 ∧ text_preview s
                   = if len text >? 200 then slice text 0 200 ++ lit "..."
                     else text)
              results (sources a)
    ∧ Forall (λ s, len (text_preview s) ≤ 203) (sources a)
    ∧ model a = Some Config.LLM_MODEL
    ∧ error a = None.
Proof.
  unfold generate_answer, try_except, generate_answer_body.
  unfold bind at 1.
  destruct (search_documents query top_k w) as [[e|results] w1];
    [by intros [= <- <-]|].
  destruct results as [|r results]; [by intros [= <- <-]|].
  cbn [truthy negb]. unfold bind at 1.
  destruct (map_m describe_result (enumerate 1 (r :: results)) w1)
    as [[e|described] w2] eqn:Hdescribe; [by intros [= <- <-]|].
  apply describe_results_inv in Hdescribe as [-> Hdescribed].
  unfold bind at 1.
  destruct (lift _ w1) as [[e|[|choice choices]] w3];
    try (by intros [= <- <-]).
  intros [= <- <-] _. exists (r :: results). cbn [sources model error fst].
  split; [done|]. split; [done|].
  assert (Hsources : Forall2 (λ r s, ∃ text,
             sr_text r = VStr text
             ∧ source s = sr_source r
             ∧ score s = sr_score r
             ∧ text_preview s
               = if len text >? 200 then slice text 0 200 ++ lit "..."
                 else text)
            (r :: results) (described.*2)).
  { by apply Forall2_fmap_r. }
  split; [done|]. split; [|done].
  clear -Hsources. induction Hsources as [|r' s rs ss (text & _ & _ & _ & Hp) _ IH];
    constructor; [|done].
  rewrite Hp. destruct (Z.gtb_spec (len text) 200); [|lia].
  pose proof (slice_prefix_length text 200 ltac:(lia)) as Hcut.
  unfold len in *. rewrite length_app.
  change (length (lit "...")) with 3%nat. lia.
Qed.

End GeneratorMore.

(** ** More on the batch scraper *)

Section UpdaterMore.
Import Py World World.Notations Retriever Updater.
Context `{svc : Services}.

(** X15: update_single_url never sleeps. Once init_collection has
    succeeded it returns a summary for one URL with exactly one entry,
    whatever time.sleep would do with the delay. *)
Theorem update_single_url_summary url w w0 :
  init_collection w = (inr (), w0) →
  ∃ d summary w',
    update_single_url url w = (inr summary, w')
    ∧ details summary = [d]
    ∧ url_outcome url d
    ∧ total_urls summary = 1
    ∧ successful summary + failed summary = 1.
Proof.
  intros Hinit. unfold update_single_url, update_from_urls.
  unfold bind at 1. rewrite Hinit.
  set (r0 := {| total_urls := len [url]; successful := 0; failed := 0;
                total_chunks := 0; details := [] |}).
  destruct (process_url_spec url r0 w0)
    as (d & r & w' & Hstep & Htotal & Hdetails & (Hs & Hf & _) & Hd);
    [done|].
  exists d, r, w'. split.
  - cbn [enumerate fold_m]. unfold bind at 1, loop_round.
    unfold bind at 1. rewrite Hstep. reflexivity.
  - split; [done|]. split; [done|]. split; [done|].
    rewrite Hs, Hf, Hdetails, tally_length. done.
Qed.


End UpdaterMore.

(** ** More on the PDF loader *)

Section PdfLoaderMore.
Import Py World World.Notations Chunker Retriever PdfLoader PdfBatch.
Context `{svc : Services}.

(** The count [add_document] returns is the number of chunks. *)
Lemma add_document_returns_count text metadata batch_size w n w' :
  add_document text metadata batch_size w = (inr n, w') →
  n = len (chunk_text_default text).
Proof.
  unfold add_document. rewrite try_except_reraise.
  destruct (truthy (chunk_text_default text)) eqn:Hchunks; cbn [negb].
  - intros Hrun.
    apply bind_inr_inv in Hrun as ([] & w1 & _ & Hrun).
    apply bind_inr_inv in Hrun as (starts & w2 & _ & Hrun).
    by apply bind_inr_inv in Hrun as ([] & w3 & _ & [= <- _]).
  - intros [= <- _]. by destruct (chunk_text_default text).
Qed.

(** Reading the pages neither changes the world nor depends on it. *)
Lemma extract_pages_world pages : ∀ w r w',
  extract_pages pages w = (r, w') →
  w' = w ∧ ∀ v, extract_pages pages v = (r, v).
Proof.
  induction pages as [|page pages IH]; intros w r w'.
  - by intros [= <- <-].
  - cbn [extract_pages]. unfold bind at 1.
    destruct page as [e|page_text]; cbn [lift]; [by intros [= <- <-]|].
    cbn [ret]. unfold bind at 1.
    destruct (extract_pages pages w) as [[e|parts] w1] eqn:Hrest;
      apply IH in Hrest as [-> Hpure]; intros [= <- <-];
      (split; [done|]); intros v; cbn [extract_pages lift];
      unfold bind, ret; by rewrite Hpure.
Qed.

(** X17: a success record of load_pdf is consistent with the file. The
    file exists and was read; "file" is the path given, "pages" the
    number of pages of the reader, "text_length" the length of the joined
    page texts, which is at least 100, and "chunks_added" the number of
    chunks of that text (0 when the text is white space only). *)
Theorem load_pdf_success_record file_path w file pages chunks_added
    text_length w' :
  load_pdf file_path w
  = (inr (LoadSuccess file pages chunks_added text_length), w') →
  file = file_path
  ∧ os_path_exists file_path = true
  ∧ ∃ reader_pages text_parts,
      pdf_pages file_path = inr reader_pages
      ∧ fst (extract_pages reader_pages w) = inr text_parts
      ∧ pages = len reader_pages
      ∧ text_length = len (join (nl ++ nl) text_parts)
      ∧ 100 ≤ text_length
      ∧ chunks_added
        = len (chunk_text_default (join (nl ++ nl) text_parts)).
Proof.
  unfold load_pdf, try_except, load_pdf_body. unfold bind at 1.
  destruct (init_collection w) as [[e|[]] w0]; [done|].
  destruct (os_path_exists file_path); cbn [negb]; [|done].
  unfold bind at 1.
  destruct (pdf_pages file_path) as [e|reader_pages]; cbn [lift];
    [done|].
  cbn [ret]. unfold bind at 1.
  destruct (extract_pages reader_pages w0) as [[e|text_parts] w1] eqn:Hparts;
    [done|].
  pose proof (extract_pages_world _ _ _ _ Hparts) as [-> Hpure].
  set (full_text := join (nl ++ nl) text_parts).
  destruct (truthy full_text); cbn [negb orb]; [|done].
  destruct (Z.ltb_spec (len full_text) 100); [done|].
  unfold bind at 1.
  destruct (add_document full_text _ 10 w0) as [[e|n] w2] eqn:Hadd; [done|].
  intros [= <- <- <- <- <-].
  pose proof (add_document_returns_count _ _ _ _ _ _ Hadd) as ->.
  split; [done|]. split; [done|]. exists reader_pages, text_parts.
  rewrite (Hpure w). by repeat split.
Qed.

End PdfLoaderMore.

(** ** A directory of PDF files *)

Section PdfBatchFacts.
Import Py World World.Notations Retriever PdfLoader PdfBatch.
Context `{svc : Services} `{fs : FileSystem}.

Lemma count_app results result :
  count_loaded (results ++ [result])
  = count_loaded results + (if loaded result then 1 else 0)
  ∧ count_not_loaded (results ++ [result])
    = count_not_loaded results + (if loaded result then 0 else 1)
  ∧ sum_chunks (results ++ [result])
    = sum_chunks results + loaded_chunks result.
Proof.
  induction results as [|d results (IH1 & IH2 & IH3)]; simpl.
  - repeat split; lia.
  - fold (count_loaded (results ++ [result]))
         (count_not_loaded (results ++ [result]))
         (sum_chunks (results ++ [result])).
    rewrite IH1, IH2, IH3.
    fold (count_loaded results) (count_not_loaded results)
         (sum_chunks results).
    repeat split; lia.
Qed.

Lemma count_length results :
  count_loaded results + count_not_loaded results = len results.
Proof.
  unfold len. induction results as [|d results IH]; simpl; [done|].
  fold (count_loaded results) (count_not_loaded results).
  destruct (loaded d); lia.
Qed.

(** The loop over the files never raises and keeps the counters in step
    with the list of results. *)
Lemma load_files_spec directory pdf_files : ∀ r w,
  pdf_successful r = count_loaded (pdf_details r) →
  pdf_failed r = count_not_loaded (pdf_details r) →
  pdf_total_chunks r = sum_chunks (pdf_details r) →
  ∃ results r' w',
    fold_m (load_one directory) pdf_files r w = (inr r', w')
    ∧ total_files r' = total_files r
    ∧ pdf_details r' = pdf_details r ++ results
    ∧ pdf_successful r' = count_loaded (pdf_details r')
    ∧ pdf_failed r' = count_not_loaded (pdf_details r')
    ∧ pdf_total_chunks r' = sum_chunks (pdf_details r')
    ∧ in_turn (λ pdf_file w0 result w1,
                 load_pdf (path_join directory pdf_file) w0
                 = (inr result, w1))
              pdf_files w results w'.
Proof.
  induction pdf_files as [|pdf_file rest IH]; intros r w Hs Hf Hc.
  - exists [], r, w. rewrite app_nil_r. repeat split; try done.
    constructor.
  - destruct (try_except_total
                (load_pdf_body (path_join directory pdf_file))
                (λ e, LoadFailed (exn_str e)) w)
      as (result & w1 & Hload & _).
    fold (load_pdf (path_join directory pdf_file)) in Hload.
    set (r1 := record_result result r).
    destruct (count_app (pdf_details r) result) as (Ha1 & Ha2 & Ha3).
    assert (pdf_details r1 = pdf_details r ++ [result]) as Hd1
      by (by destruct result).
    assert (total_files r1 = total_files r) as Ht1 by (by destruct result).
    destruct (IH r1 w1) as (results & r2 & w2 & Hrun & Ht & Hd & Hrest).
    + rewrite Hd1, Ha1. destruct result; simpl; lia.
    + rewrite Hd1, Ha2. destruct result; simpl; lia.
    + rewrite Hd1, Ha3. destruct result; simpl; lia.
    + exists (result :: results), r2, w2.
      split; [|split; [congruence|split]].
      * cbn [fold_m]. unfold bind at 1, load_one. unfold bind at 1.
        rewrite Hload. exact Hrun.
      * by rewrite Hd, Hd1, <- app_assoc.
      * destruct Hrest as (? & ? & ? & Hall). repeat split; try done.
        by apply in_turn_cons with w1.
Qed.

(** X18: load_multiple_pdfs on a directory that exists, can be listed
    and holds at least one name ending in ".pdf" returns a summary and
    never raises. The files are loaded in turn, in the order of the
    listing: the result of a file is the result of load_pdf on the file's
    path, run on the store as the files before it left it; what load_pdf
    writes stays, and the store at the end is the one the last file left.
    "successful" counts the success records, "failed" the others,
    "total_chunks" adds up the chunks of the successes, and
    successful + failed = total_files. *)
Theorem load_multiple_pdfs_summary directory names w :
  os_path_exists directory = true →
  os_listdir directory = inr names →
  List.filter endswith_pdf names ≠ [] →
  ∃ summary w',
    load_multiple_pdfs directory w = (inr (BatchSummary summary), w')
    ∧ total_files summary = len (List.filter endswith_pdf names)
    ∧ in_turn (λ pdf_file w0 result w1,
                 load_pdf (path_join directory pdf_file) w0
                 = (inr result, w1))
              (List.filter endswith_pdf names) w (pdf_details summary) w'
    ∧ pdf_successful summary = count_loaded (pdf_details summary)
    ∧ pdf_failed summary = count_not_loaded (pdf_details summary)
    ∧ pdf_total_chunks summary = sum_chunks (pdf_details summary)
    ∧ pdf_successful summary + pdf_failed summary = total_files summary.
Proof.
  intros Hexists Hlist Hsome. unfold load_multiple_pdfs.
  rewrite Hexists. cbn [negb]. unfold bind at 1. rewrite Hlist.
  cbn [lift ret].
  set (pdf_files := List.filter endswith_pdf names) in *.
  destruct pdf_files as [|f pdf_files'] eqn:Hfiles; [done|].
  rewrite <- Hfiles in *. replace (truthy pdf_files) with true
    by (by rewrite Hfiles).
  cbn [negb]. unfold bind at 1.
  set (r0 := {| total_files := len pdf_files |}).
  destruct (load_files_spec directory pdf_files r0 w)
    as (results & r & w' & -> & Ht & Hd & Hs & Hf & Hc & Hall);
    [done..|].
  simpl in Hd. exists r, w'. rewrite Hd in *.
  repeat split; try done.
  rewrite Hs, Hf, Ht, count_length. unfold r0, len. cbn [total_files].
  f_equal. clear -Hall. induction Hall; simpl; congruence.
Qed.

End PdfBatchFacts.

(** ** The endpoints *)

Section MainFacts.
Import Py World World.Notations Chunker Retriever Generator Main.
Context `{svc : Services}.

(** X19: POST /ask never answers with a 500. generate_answer catches
    every exception itself, so the except branch of the endpoint is never
    taken: whatever the services do, the endpoint returns the dictionary
    of generate_answer. *)
Theorem ask_never_fails query top_k w :
  ∃ result w',
    ask query top_k w = (Ok result, w')
    ∧ generate_answer query top_k w = (inr result, w').
Proof.
  unfold ask, generate_answer.
  destruct (try_except_total (generate_answer_body query top_k)
              error_answer w) as (a & w' & Hrun & _).
  exists a, w'. by rewrite Hrun.
Qed.

(** X20: POST /add_document labels what it stores. Every point the
    endpoint adds, also when it ends in an error, has the request's
    source under "source"; a success body repeats the source and gives
    the number of chunks of the text; an error is always a 500. *)
Theorem add_doc_source_label text source w resp w' :
  add_doc text source w = (resp, w') →
  match resp with
  | Ok body =>
      body_status body = lit "success"
      ∧ body_source body = source
      ∧ body_chunks_added body = len (chunk_text_default text)
  | HTTPException status_code _ => status_code = 500
  end
  ∧ ∃ new_points,
      points w' = points w ++ new_points
      ∧ Forall (λ p, point_payload p !! lit "source" = Some (VStr source))
               new_points.
Proof.
  unfold add_doc.
  destruct (add_document text _ 10 w) as [r w1] eqn:Hadd.
  destruct (add_document_store _ _ _ _ _ _ Hadd)
    as (_ & new & Hpts & Hnew).
  assert (Hlabel : ∃ new_points,
            points w1 = points w ++ new_points
            ∧ Forall (λ p, point_payload p !! lit "source"
                           = Some (VStr source)) new_points).
  { exists new. split; [done|]. eapply Forall_impl; [exact Hnew|].
    intros p (chunk & index & _ & ->). unfold make_payload.
    apply lookup_union_Some_l. apply lookup_insert_eq. }
  destruct r as [e|n]; intros [= <- <-]; (split; [|done]); [done|].
  cbn. repeat split.
  by eapply add_document_returns_count.
Qed.

End MainFacts.

(** ** Concrete runs for the further properties *)

Section MoreRuns.
Import Py World Chunker Embedder Retriever Generator Updater PdfLoader.
Import StoreInfo PdfBatch Main.

Lemma get_embedder_once_witness :
  get_embedder (svc := Demo.quiet) Demo.fresh_world
  = (inr (), snd (get_embedder (svc := Demo.quiet) Demo.fresh_world))
  ∧ get_embedder (svc := Demo.store_down)
      (snd (get_embedder (svc := Demo.quiet) Demo.fresh_world))
    = (inr (), snd (get_embedder (svc := Demo.quiet) Demo.fresh_world)).
Proof.
  split; [reflexivity|].
  pose proof (get_embedder_once (svc := Demo.quiet) Demo.fresh_world
                (inr ()) _ eq_refl) as [_ Honce].
  apply (Honce Demo.store_down).
Defined.

Lemma init_collection_idempotent_witness :
  init_collection (svc := Demo.quiet) Demo.fresh_world
  = (inr (), Demo.ready_world)
  ∧ init_collection (svc := Demo.quiet) Demo.ready_world
    = (inr (), Demo.ready_world).
Proof.
  split; [reflexivity|].
  destruct (init_collection_idempotent (svc := Demo.quiet)
              Demo.fresh_world Demo.ready_world eq_refl)
    as (_ & _ & Hagain).
  by apply Hagain.
Defined.

Lemma add_document_keeps_points_witness :
  ∃ new_points,
    points (snd (add_document (svc := Demo.quiet) (lit "hello world") None
                   10 Demo.stocked_world))
    = points Demo.stocked_world ++ new_points.
Proof.
  destruct (add_document_keeps_points (svc := Demo.quiet)
              (lit "hello world") None 10 Demo.stocked_world _ _ eq_refl)
    as [_ Hkept].
  exact Hkept.
Defined.

Lemma add_document_failure_prefix_witness :
  ∃ e w' new_points k,
    add_document (svc := DemoMore.small_store) DemoMore.long_text None 1
      Demo.ready_world = (inl e, w')
    ∧ points w' = points Demo.ready_world ++ new_points
    ∧ point_payload <$> new_points
      = chunk_payloads None 0
          (take (k * Z.to_nat 1) (chunk_text_default DemoMore.long_text)).
Proof.
  set (run := add_document (svc := DemoMore.small_store) DemoMore.long_text
                None 1 Demo.ready_world).
  assert (Hrun : run = (inl (Exception (lit "storage is full")), snd run))
    by (vm_compute; reflexivity).
  destruct (add_document_failure_prefix (svc := DemoMore.small_store)
              DemoMore.long_text None 1 Demo.ready_world _ _
              quiet_encode_length ltac:(lia) Hrun)
    as (new_points & k & Hpoints & Hpayloads).
  exists (Exception (lit "storage is full")), (snd run), new_points, k.
  split; [exact Hrun|]. split; [exact Hpoints | exact Hpayloads].
Defined.

Lemma add_document_metadata_in_payloads_witness :
  ∃ new_points,
    points (snd (add_document (svc := Demo.quiet) (lit "hello world")
                   (Some (web_metadata Demo.guide_url (VStr (lit "Guide"))))
                   10 Demo.ready_world))
    = points Demo.ready_world ++ new_points
    ∧ Forall (λ p, point_payload p !! lit "type"
                   = Some (VStr (lit "web_page"))) new_points.
Proof.
  destruct (add_document_metadata_in_payloads (svc := Demo.quiet)
              (lit "hello world")
              (Some (web_metadata Demo.guide_url (VStr (lit "Guide"))))
              10 Demo.ready_world _ _ eq_refl)
    as (new_points & Hpoints & Hall).
  exists new_points. split; [done|].
  eapply Forall_impl; [exact Hall|].
  intros p [Hkeys _]. apply Hkeys. vm_compute. reflexivity.
Defined.

Lemma collection_info_after_add_witness :
  ∃ w',
    add_document (svc := Demo.quiet) (lit "hello world") None 10
      Demo.ready_world = (inr 1, w')
    ∧ get_collection_info (status := DemoMore.reporting) Demo.ready_world
      = (inr (InfoHealthy Config.COLLECTION_NAME (Some 0) 0),
         Demo.ready_world)
    ∧ get_collection_info (status := DemoMore.reporting) w'
      = (inr (InfoHealthy Config.COLLECTION_NAME (Some 1) 1), w').
Proof.
  set (run := add_document (svc := Demo.quiet) (lit "hello world") None 10
                Demo.ready_world).
  assert (Hrun : run = (inr 1, snd run)) by (vm_compute; reflexivity).
  destruct (collection_info_after_add (svc := Demo.quiet)
              (status := DemoMore.reporting) (lit "hello world") None 10
              Demo.ready_world 1 (snd run) quiet_encode_length ltac:(lia)
              ltac:(vm_compute; constructor) eq_refl eq_refl Hrun)
    as (before & Hbefore & Hafter).
  exists (snd run). split; [done|].
  assert (before = 0) as -> by (vm_compute in Hbefore; congruence).
  split; [exact Hbefore | exact Hafter].
Defined.

Lemma generate_answer_with_context_witness :
  ∃ a w',
    generate_answer (svc := Demo.quiet) (lit "What is FastAPI?") 3
      Demo.stocked_world = (inr a, w')
    ∧ context_used a = true
    ∧ answer a = lit "FastAPI is a web framework."
    ∧ Forall (λ s, len (text_preview s) ≤ 203) (sources a)
    ∧ model a = Some Config.LLM_MODEL.
Proof.
  set (run := generate_answer (svc := Demo.quiet) (lit "What is FastAPI?") 3
                Demo.stocked_world).
  destruct run as [[e|a] w'] eqn:Hrun; [by vm_compute in Hrun|].
  assert (Hused : context_used a = true)
    by (vm_compute in Hrun; by injection Hrun as <- _).
  assert (Hanswer : answer a = lit "FastAPI is a web framework.")
    by (vm_compute in Hrun; by injection Hrun as <- _).
  destruct (generate_answer_with_context (svc := Demo.quiet)
              (lit "What is FastAPI?") 3 Demo.stocked_world a w' Hrun Hused)
    as (results & _ & _ & _ & Hpreviews & Hmodel & _).
  by exists a, w'.
Defined.

Lemma update_single_url_summary_witness :
  init_collection (svc := DemoMore.no_sleep) Demo.fresh_world
  = (inr (), Demo.ready_world)
  ∧ ∃ d summary w',
      update_single_url (svc := DemoMore.no_sleep) Demo.guide_url
        Demo.fresh_world = (inr summary, w')
      ∧ details summary = [d]
      ∧ total_urls summary = 1.
Proof.
  split; [reflexivity|].
  destruct (update_single_url_summary (svc := DemoMore.no_sleep)
              Demo.guide_url Demo.fresh_world Demo.ready_world eq_refl)
    as (d & summary & w' & Hrun & Hdetails & _ & Htotal & _).
  exists d, summary, w'.
  split; [exact Hrun|]. split; [exact Hdetails | exact Htotal].
Defined.


Lemma load_pdf_success_record_witness :
  ∃ w',
    load_pdf (svc := DemoMore.long_pdf) Demo.short_pdf Demo.ready_world
    = (inr (LoadSuccess Demo.short_pdf 1 1 150), w')
    ∧ 100 ≤ 150.
Proof.
  set (run := load_pdf (svc := DemoMore.long_pdf) Demo.short_pdf
                Demo.ready_world).
  assert (Hrun : run = (inr (LoadSuccess Demo.short_pdf 1 1 150), snd run))
    by (vm_compute; reflexivity).
  destruct (load_pdf_success_record (svc := DemoMore.long_pdf) _ _ _ _ _ _ _
              Hrun)
    as (_ & _ & pages & parts & _ & _ & _ & _ & Hlong & _).
  by exists (snd run).
Defined.

(** A directory with two PDF files of 150 characters each and a text
    file: both PDFs are loaded, and the store ends with the chunk of the
    first followed by the chunk of the second. *)
Lemma load_multiple_pdfs_summary_witness :
  List.filter endswith_pdf [lit "a.pdf"; lit "notes.txt"; lit "b.pdf"]
  = [lit "a.pdf"; lit "b.pdf"]
  ∧ ∃ summary w',
      load_multiple_pdfs (svc := DemoMore.long_pdf) (fs := DemoMore.two_pdfs)
        DemoMore.upload_dir Demo.ready_world
      = (inr (BatchSummary summary), w')
      ∧ total_files summary = 2
      ∧ in_turn (λ pdf_file w0 result w1,
                   load_pdf (svc := DemoMore.long_pdf)
                     (path_join DemoMore.upload_dir pdf_file) w0
                   = (inr result, w1))
          [lit "a.pdf"; lit "b.pdf"] Demo.ready_world
          (pdf_details summary) w'
      ∧ (λ p, point_payload p !! lit "source") <$> points w'
        = [Some (VStr (lit "a.pdf")); Some (VStr (lit "b.pdf"))]
      ∧ pdf_successful summary + pdf_failed summary = 2.
Proof.
  split; [reflexivity|].
  set (run := load_multiple_pdfs (svc := DemoMore.long_pdf)
                (fs := DemoMore.two_pdfs) DemoMore.upload_dir
                Demo.ready_world).
  assert (Hstored : (λ p, point_payload p !! lit "source")
                      <$> points (snd run)
                    = [Some (VStr (lit "a.pdf")); Some (VStr (lit "b.pdf"))])
    by (vm_compute; reflexivity).
  destruct (load_multiple_pdfs_summary (svc := DemoMore.long_pdf)
              (fs := DemoMore.two_pdfs) DemoMore.upload_dir
              [lit "a.pdf"; lit "notes.txt"; lit "b.pdf"] Demo.ready_world
              eq_refl eq_refl ltac:(vm_compute; discriminate))
    as (summary & w' & Hrun & Htotal & Hturn & _ & _ & _ & Hsum).
  fold run in Hrun. rewrite Hrun in Hstored. cbn [snd] in Hstored.
  exists summary, w'.
  split; [exact Hrun|]. split; [exact Htotal|]. split; [exact Hturn|].
  split; [exact Hstored|]. rewrite Hsum. exact Htotal.
Defined.

Lemma add_doc_source_label_witness :
  ∃ body w' new_points,
    add_doc (svc := Demo.quiet) (lit "hello world")
      (lit "FastAPI Documentation") Demo.ready_world = (Ok body, w')
    ∧ body_chunks_added body = 1
    ∧ points w' = points Demo.ready_world ++ new_points
    ∧ Forall (λ p, point_payload p !! lit "source"
                   = Some (VStr (lit "FastAPI Documentation"))) new_points.
Proof.
  set (run := add_doc (svc := Demo.quiet) (lit "hello world")
                (lit "FastAPI Documentation") Demo.ready_world).
  destruct run as [[body|code detail] w'] eqn:Hrun;
    [|by vm_compute in Hrun].
  destruct (add_doc_source_label (svc := Demo.quiet) _ _ _ _ _ Hrun)
    as ((_ & _ & Hcount) & new_points & Hpoints & Hlabel).
  exists body, w', new_points. split; [done|]. split; [|done].
  rewrite Hcount. reflexivity.
Defined.

End MoreRuns.
